(** * The crossword constraint-satisfaction engine of [crossword/generate.py]

    A shallow embedding of class [CrosswordCreator]: node consistency,
    [revise], the AC-3 worklist loop, the two ordering heuristics, the
    consistency test, the backtracking search and [solve], followed by the
    theorems that settle the specification's claims about them.

    Conventions of the embedding.
    - A Python [set] is a list in iteration order (duplicate-free in every
      state the program builds); a [dict] is an association list in
      insertion order, read by first match.
    - A method that only reads [self] is a function of what it reads and
      returns a [res]; a method that mutates [self.domains] or the
      assignment dict takes the store and returns the outcome together
      with the store as the call left it.
    - [KeyError] and [IndexError] are outcomes of their own; a loop whose
      termination is itself a claim takes fuel, and running out of it is
      the third outcome, never confused with a Python result. *)

From Stdlib Require Import List String Ascii Bool Arith NArith Lia.
From Stdlib Require Import Permutation Sorted.
Import ListNotations.
Local Open Scope list_scope.

(** ** Outcomes *)

Inductive exn : Type := KeyError | IndexError.

Inductive res (A : Type) : Type :=
| Ret (a : A)
| Raise (e : exn)
| OutOfFuel.

Arguments Ret {A} a.
Arguments Raise {A} e.
Arguments OutOfFuel {A}.

Definition bind {A B : Type} (m : res A) (k : A -> res B) : res B :=
  match m with
  | Ret a => k a
  | Raise e => Raise e
  | OutOfFuel => OutOfFuel
  end.

Notation "x <- m ;; k" := (bind m (fun x => k))
  (at level 61, m at next level, right associativity).

(** An outcome that is not a value, carried to another result type. *)
Definition abort {A B : Type} (m : res A) : res B :=
  match m with
  | Raise e => Raise e
  | _ => OutOfFuel
  end.

(** [w[k]] for a non-negative offset [k]. *)
Definition index (w : string) (k : nat) : res ascii :=
  match String.get k w with
  | Some c => Ret c
  | None => Raise IndexError
  end.

(** ** Slots and the crossword

    Class [Variable] (a reserved word here, hence [Slot]) and class
    [Crossword] are declared in [crossword.py]; the fields below are the
    ones that [generate.py] reads. *)

Inductive Direction : Type := ACROSS | DOWN.

(** Modelled from the spec: a slot has a start row and column, a
    direction and a length, and two slots are equal iff all four agree. *)
Module Slot.
Record t : Type := mk { i : nat; j : nat; direction : Direction; length : nat }.

(** [__eq__]: same start, direction and length. *)
Definition eq_dec (x y : t) : {x = y} + {x <> y}.
Proof. repeat decide equality. Defined.

Definition eqb (x y : t) : bool := if eq_dec x y then true else false.
End Slot.

Definition arc : Type := (Slot.t * Slot.t)%type.

(** Modelled from the spec: the loader hands over the set of slots, the
    vocabulary (a set of strings) and the overlap relation, a lookup from
    ordered slot pairs to [None] or an offset pair; [generate.py] also
    iterates over the keys of that dict, given here as a list in
    iteration order. [overlaps] gives the value of the entry of a key.
    The subscript [overlaps[x, y]] on a pair that is not a key raises
    [KeyError] in the source and has no counterpart here, so a statement
    about pairs chosen by a caller takes them among the keys. *)
Record Crossword : Type := {
  variables : list Slot.t;
  words : list string;
  overlaps_keys : list arc;
  overlaps : Slot.t -> Slot.t -> option (nat * nat)
}.

(** Modelled from the spec: [Crossword.neighbors] is defined in
    [crossword.py]; a neighbor of a slot is a distinct slot of the puzzle
    with an overlap entry to it, and the degree of a slot is the number of
    its neighbors. *)
Definition neighbors (cw : Crossword) (var : Slot.t) : list Slot.t :=
  filter (fun v => negb (Slot.eqb v var) &&
                   match overlaps cw v var with Some _ => true | None => false end)
         (variables cw).

(** ** The domain store [self.domains] *)

Definition store : Type := list (Slot.t * list string).

Fixpoint lookup (x : Slot.t) (D : store) : option (list string) :=
  match D with
  | [] => None
  | (k, d) :: D' => if Slot.eq_dec x k then Some d else lookup x D'
  end.

(** [self.domains[x]] *)
Definition getitem (x : Slot.t) (D : store) : res (list string) :=
  match lookup x D with
  | Some d => Ret d
  | None => Raise KeyError
  end.

(** In-place change of the set object stored under [x]. *)
Fixpoint update_with (f : list string -> list string) (x : Slot.t) (D : store) : store :=
  match D with
  | [] => []
  | (k, d) :: D' =>
      if Slot.eq_dec x k then (k, f d) :: D' else (k, d) :: update_with f x D'
  end.

(** [s.remove(w)]; at both call sites [w] was read from a snapshot of the
    same set, so the element is present and the call does not raise. *)
Definition remove_word (w : string) (d : list string) : list string :=
  filter (fun u => negb (String.eqb u w)) d.

Definition total_size (D : store) : nat :=
  list_sum (map (fun e => List.length (snd e)) D).

(** ** The assignment dict *)

Definition dict : Type := list (Slot.t * string).

Fixpoint dict_get (a : dict) (x : Slot.t) : option string :=
  match a with
  | [] => None
  | (k, w) :: a' => if Slot.eq_dec x k then Some w else dict_get a' x
  end.

(** [x in a] *)
Definition dict_mem (x : Slot.t) (a : dict) : bool :=
  match dict_get a x with Some _ => true | None => false end.

(** [a[x] = w]: overwrite in place, or append a new key. *)
Fixpoint dict_set (x : Slot.t) (w : string) (a : dict) : dict :=
  match a with
  | [] => [(x, w)]
  | (k, u) :: a' =>
      if Slot.eq_dec x k then (k, w) :: a' else (k, u) :: dict_set x w a'
  end.

(** [del a[x]] *)
Fixpoint dict_del (x : Slot.t) (a : dict) : res dict :=
  match a with
  | [] => Raise KeyError
  | (k, u) :: a' =>
      if Slot.eq_dec x k then Ret a'
      else a'' <- dict_del x a' ;; Ret ((k, u) :: a'')
  end.

(** ** [sorted]: a stable sort by an integer key *)

Section Sorted.
Context {A : Type} (key : A -> nat).

Fixpoint insert_asc (x : A) (l : list A) : list A :=
  match l with
  | [] => [x]
  | y :: l' => if key x <=? key y then x :: l else y :: insert_asc x l'
  end.

Fixpoint insert_desc (x : A) (l : list A) : list A :=
  match l with
  | [] => [x]
  | y :: l' => if key y <=? key x then x :: l else y :: insert_desc x l'
  end.

(** [sorted(l, key=key)] *)
Definition sorted (l : list A) : list A := fold_right insert_asc [] l.

(** [sorted(l, key=key, reverse=True)]: equal keys keep their order. *)
Definition sorted_reverse (l : list A) : list A := fold_right insert_desc [] l.
End Sorted.

(** ** The solver *)

(** What [backtrack] can touch: the domain store of [self], the one
    assignment dict that [solve] creates and every recursive call shares,
    and a ghost counter of the invocations of [backtrack]. *)
Record state : Type := {
  domains : store;
  assignment : dict;
  bt_calls : nat
}.

Definition with_assignment (st : state) (a : dict) : state :=
  {| domains := domains st; assignment := a; bt_calls := bt_calls st |}.

Definition enter_backtrack (st : state) : state :=
  {| domains := domains st; assignment := assignment st; bt_calls := S (bt_calls st) |}.

Section Creator.
Context (cw : Crossword).

(** [__init__]: every slot starts with a copy of the vocabulary. *)
Definition init : store := map (fun var => (var, words cw)) (variables cw).

(** *** [enforce_node_consistency] *)

Definition prune_lengths (var : Slot.t) (elements : list string) (D : store) : store :=
  fold_left
    (fun D element =>
       if String.length element =? Slot.length var then D
       else update_with (remove_word element) var D)
    elements D.

Definition enforce_node_consistency (D : store) : store :=
  fold_left (fun D item => prune_lengths (fst item) (snd item) D) D D.

(** *** [revise] *)

(** The inner loop of [revise]: is there a word of [dy] that agrees
    with [w] at the offsets? *)
Fixpoint has_support (w : string) (i j : nat) (dy : list string) : res bool :=
  match dy with
  | [] => Ret false
  | u :: dy' =>
      a <- index w i ;;
      b <- index u j ;;
      if Ascii.eqb a b then Ret true else has_support w i j dy'
  end.

(** The outer loop, over the snapshot [list(self.domains[x])]. *)
Fixpoint revise_loop (x y : Slot.t) (i j : nat) (snapshot : list string)
         (revised : bool) (D : store) : res bool * store :=
  match snapshot with
  | [] => (Ret revised, D)
  | possible_word :: rest =>
      match (dy <- getitem y D ;; has_support possible_word i j dy) with
      | Ret true => revise_loop x y i j rest revised D
      | Ret false =>
          revise_loop x y i j rest true
                      (update_with (remove_word possible_word) x D)
      | r => (abort r, D)
      end
  end.

Definition revise (x y : Slot.t) (D : store) : res bool * store :=
  match overlaps cw x y with
  | None => (Ret false, D)
  | Some (i, j) =>
      match getitem x D with
      | Ret dx => revise_loop x y i j dx false D
      | r => (abort r, D)
      end
  end.

(** *** [ac3] *)

(** The arcs to re-examine after [domains[x]] shrank through [(x, y)]. *)
Definition requeue (x y : Slot.t) : list arc :=
  map (fun neighbor => (neighbor, x))
      (filter (fun neighbor => negb (Slot.eqb neighbor y)) (neighbors cw x)).

(** The [while] loop over the FIFO queue; one unit of fuel per arc
    taken from it. *)
Fixpoint ac3_loop (fuel : nat) (queue : list arc) (D : store) : res bool * store :=
  match queue with
  | [] => (Ret true, D)
  | (x, y) :: queue' =>
      match fuel with
      | 0 => (OutOfFuel, D)
      | S fuel' =>
          match revise x y D with
          | (Ret true, D') =>
              match getitem x D' with
              | Ret dx =>
                  if List.length dx =? 0 then (Ret false, D')
                  else ac3_loop fuel' (queue' ++ requeue x y) D'
              | r => (abort r, D')
              end
          | (Ret false, D') => ac3_loop fuel' queue' D'
          | (r, D') => (abort r, D')
          end
      end
  end.

(** With [arcs=None] the queue starts with the keys of the overlaps
    dict (each key is a pair, so the [is not None] test passes). *)
Definition initial_queue (arcs : option (list arc)) : list arc :=
  match arcs with
  | None => overlaps_keys cw
  | Some l => l
  end.

Definition ac3 (fuel : nat) (arcs : option (list arc)) (D : store) : res bool * store :=
  ac3_loop fuel (initial_queue arcs) D.

(** Fuel that always suffices for the loop. *)
Definition ac3_fuel (queue : list arc) (D : store) : nat :=
  S (List.length queue + S (List.length (variables cw)) * total_size D).

(** *** [assignment_complete] *)

Definition assignment_complete (a : dict) : bool :=
  forallb (fun var => dict_mem var a) (variables cw).

(** *** [consistent]

    Assignment values are words, so the two [is not None] tests of the
    source always pass and are not repeated here. *)

Fixpoint consistent_inner (var : Slot.t) (word : string) (items : dict) : res bool :=
  match items with
  | [] => Ret true
  | (y, y_word) :: rest =>
      if Slot.eq_dec var y then consistent_inner var word rest
      else if String.eqb word y_word then Ret false
      else
        match overlaps cw var y with
        | None => consistent_inner var word rest
        | Some (i, j) =>
            a <- index word i ;;
            b <- index y_word j ;;
            if Ascii.eqb a b then consistent_inner var word rest else Ret false
        end
  end.

Fixpoint consistent_outer (items : dict) (a : dict) : res bool :=
  match items with
  | [] => Ret true
  | (var, word) :: rest =>
      if String.length word =? Slot.length var then
        ok <- consistent_inner var word a ;;
        if ok then consistent_outer rest a else Ret false
      else Ret false
  end.

Definition consistent (a : dict) : res bool := consistent_outer a a.

(** *** [order_domain_values] *)

Fixpoint count_mismatches (domain_value : string) (i j : nat) (d : list string)
         (num_eliminated : nat) : res nat :=
  match d with
  | [] => Ret num_eliminated
  | other_var_possible_value :: d' =>
      a <- index domain_value i ;;
      b <- index other_var_possible_value j ;;
      count_mismatches domain_value i j d'
                       (if Ascii.eqb a b then num_eliminated else S num_eliminated)
  end.

Fixpoint eliminated (var : Slot.t) (a : dict) (D : store) (domain_value : string)
         (others : list Slot.t) (num_eliminated : nat) : res nat :=
  match others with
  | [] => Ret num_eliminated
  | other_var :: rest =>
      if negb (dict_mem other_var a) && negb (Slot.eqb other_var var) then
        match overlaps cw var other_var with
        | Some (i, j) =>
            d <- getitem other_var D ;;
            n <- count_mismatches domain_value i j d num_eliminated ;;
            eliminated var a D domain_value rest n
        | None => eliminated var a D domain_value rest num_eliminated
        end
      else eliminated var a D domain_value rest num_eliminated
  end.

(** The dict [domain_values], from word to its elimination count. *)
Fixpoint domain_values (var : Slot.t) (a : dict) (D : store) (d : list string)
  : res (list (string * nat)) :=
  match d with
  | [] => Ret []
  | domain_value :: d' =>
      n <- eliminated var a D domain_value (variables cw) 0 ;;
      rest <- domain_values var a D d' ;;
      Ret ((domain_value, n) :: rest)
  end.

Definition order_domain_values (var : Slot.t) (a : dict) (D : store) : res (list string) :=
  d <- getitem var D ;;
  dv <- domain_values var a D d ;;
  Ret (map fst (sorted snd dv)).

(** *** [select_unassigned_variable] *)

(** The initial value of [smallest_domain]. *)
Definition sentinel : N := 10000000000%N.

Definition degree (var : Slot.t) : nat := List.length (neighbors cw var).

Fixpoint select_scan (vars : list Slot.t) (a : dict) (D : store)
         (smallest_domain : N) (current_best : list Slot.t)
  : res (N * list Slot.t) :=
  match vars with
  | [] => Ret (smallest_domain, current_best)
  | var :: rest =>
      if dict_mem var a then select_scan rest a D smallest_domain current_best
      else
        d <- getitem var D ;;
        let domain_size := N.of_nat (List.length d) in
        if (domain_size <? smallest_domain)%N then
          select_scan rest a D domain_size [var]
        else if (domain_size =? smallest_domain)%N then
          select_scan rest a D smallest_domain (current_best ++ [var])
        else select_scan rest a D smallest_domain current_best
  end.

(** [None] is the Python [None] returned when no candidate was kept. *)
Definition select_unassigned_variable (a : dict) (D : store) : res (option Slot.t) :=
  r <- select_scan (variables cw) a D sentinel [] ;;
  match snd r with
  | [] => Ret None
  | [var] => Ret (Some var)
  | current_best =>
      match sorted_reverse degree current_best with
      | var :: _ => Ret (Some var)
      | [] => Raise IndexError
      end
  end.

(** *** [backtrack] *)

(** [del assignment[var]], the last statement of the loop body;
    [(Ret None, _)] means that the loop goes on. *)
Definition undo (var : Slot.t) (st : state) : res (option dict) * state :=
  match dict_del var (assignment st) with
  | Ret a' => (Ret None, with_assignment st a')
  | r => (abort r, st)
  end.

(** One iteration of the [for] loop. *)
Definition try_word (recur : state -> res (option dict) * state)
           (var : Slot.t) (possible_word : string) (st : state)
  : res (option dict) * state :=
  let st1 := with_assignment st (dict_set var possible_word (assignment st)) in
  match consistent (assignment st1) with
  | Ret true =>
      match recur st1 with
      | (Ret None, st2) => undo var st2
      | (r, st2) => (r, st2)
      end
  | Ret false => undo var st1
  | r => (abort r, st1)
  end.

Fixpoint backtrack_loop (recur : state -> res (option dict) * state)
         (var : Slot.t) (candidates : list string) (st : state)
  : res (option dict) * state :=
  match candidates with
  | [] => (Ret None, st)
  | possible_word :: rest =>
      match try_word recur var possible_word st with
      | (Ret None, st') => backtrack_loop recur var rest st'
      | (r, st') => (r, st')
      end
  end.

(** One unit of fuel per level of recursion. When
    [select_unassigned_variable] returns [None], the next statement
    evaluates [self.domains[None]]. *)
Fixpoint backtrack (fuel : nat) (st : state) : res (option dict) * state :=
  match fuel with
  | 0 => (OutOfFuel, st)
  | S fuel' =>
      let st := enter_backtrack st in
      if assignment_complete (assignment st) then (Ret (Some (assignment st)), st)
      else
        match select_unassigned_variable (assignment st) (domains st) with
        | Ret (Some var) =>
            match order_domain_values var (assignment st) (domains st) with
            | Ret candidates => backtrack_loop (backtrack fuel') var candidates st
            | r => (abort r, st)
            end
        | Ret None => (Raise KeyError, st)
        | r => (abort r, st)
        end
  end.

(** *** [solve]

    The value of [self.ac3()] is dropped; the search starts from a fresh
    dict with enough fuel for one level per slot. *)
Definition solve (D : store) : res (option dict) * state :=
  let D1 := enforce_node_consistency D in
  let (r, D2) := ac3 (ac3_fuel (initial_queue None) D1) None D1 in
  let st := {| domains := D2; assignment := []; bt_calls := 0 |} in
  match r with
  | Ret _ => backtrack (S (List.length (variables cw))) st
  | r => (abort r, st)
  end.

(** ** The properties stated about the solver *)

(** The words agree at offsets [i] and [j]. *)
Definition agree (i j : nat) (w u : string) : Prop :=
  exists c, String.get i w = Some c /\ String.get j u = Some c.

Definition agreeb (i j : nat) (w u : string) : bool :=
  match String.get i w, String.get j u with
  | Some a, Some b => Ascii.eqb a b
  | _, _ => false
  end.

(** Some word of [dy] agrees with [w]. *)
Definition supported (i j : nat) (dy : list string) (w : string) : bool :=
  existsb (agreeb i j w) dy.

Definition complete (a : dict) : Prop :=
  forall v, In v (variables cw) -> exists w, dict_get a v = Some w.

Definition lengths_match (a : dict) : Prop :=
  forall v w, dict_get a v = Some w -> String.length w = Slot.length v.

Definition words_distinct (a : dict) : Prop :=
  forall x y wx wy, x <> y ->
    dict_get a x = Some wx -> dict_get a y = Some wy -> wx <> wy.

Definition overlaps_agree (a : dict) : Prop :=
  forall x y i j wx wy, x <> y -> overlaps cw x y = Some (i, j) ->
    dict_get a x = Some wx -> dict_get a y = Some wy -> agree i j wx wy.

Definition globally_consistent (a : dict) : Prop :=
  lengths_match a /\ words_distinct a /\ overlaps_agree a.

Definition from_vocabulary (a : dict) : Prop :=
  forall v w, dict_get a v = Some w -> In w (words cw).

(** The arc [(x, y)] is consistent in [D]. *)
Definition arc_consistent (D : store) (x y : Slot.t) (i j : nat) : Prop :=
  forall dx w, lookup x D = Some dx -> In w dx ->
    exists dy u, lookup y D = Some dy /\ In u dy /\ agree i j w u.

(** Modelled from the spec: the overlap relation is computed in
    [crossword.py]; an overlap is an entry for an ordered pair of
    distinct slots of the puzzle that share a cell. *)
Definition overlaps_between_slots : Prop :=
  forall x y i j, overlaps cw x y = Some (i, j) ->
    x <> y /\ In x (variables cw) /\ In y (variables cw).

(** Modelled from the spec: the shared cell is the same seen from either
    slot, so the entry of the reversed pair has the offsets swapped, and
    every overlapping ordered pair is a key of the dict, hence in the
    default worklist. *)
Record overlaps_wf : Prop := {
  wf_slots : overlaps_between_slots;
  wf_sym : forall x y i j, overlaps cw x y = Some (i, j) ->
           overlaps cw y x = Some (j, i);
  wf_keys : forall x y i j, overlaps cw x y = Some (i, j) ->
            In (x, y) (overlaps_keys cw)
}.

End Creator.

(** ** Auxiliary definitions used by the proofs *)

(** The domain of [y], empty when [y] has no entry. *)
Definition dom (y : Slot.t) (D : store) : list string :=
  match lookup y D with
  | Some d => d
  | None => []
  end.

(** The length test of [enforce_node_consistency]. *)
Definition length_ok (var : Slot.t) (w : string) : bool :=
  String.length w =? Slot.length var.

(** [u] is one of the words that the inner loop over [elements] removes. *)
Definition prunes (var : Slot.t) (elements : list string) (u : string) : bool :=
  existsb (fun e => negb (length_ok var e) && String.eqb u e) elements.

(** [sol] gives every entry of [a] the same word. *)
Definition extends (sol a : dict) : Prop :=
  forall v w, In (v, w) a -> dict_get sol v = Some w.

(** [len(self.domains[v])], as the integer compared with the sentinel. *)
Definition domain_size (D : store) (v : Slot.t) : N :=
  N.of_nat (List.length (dom v D)).

(** The number of slots of the puzzle without an entry in [a]. *)
Definition unassigned (cw : Crossword) (a : dict) : nat :=
  List.length (filter (fun v => negb (dict_mem v a)) (variables cw)).

(** Every word that [sol] gives a slot of the puzzle is in the domain
    of that slot. *)
Definition within (cw : Crossword) (sol : dict) (D : store) : Prop :=
  forall v w, In v (variables cw) -> dict_get sol v = Some w -> In w (dom v D).

(** A complete, globally consistent assignment of words of [D]. *)
Definition solution_in (cw : Crossword) (D : store) (sol : dict) : Prop :=
  complete cw sol /\ globally_consistent cw sol /\ within cw sol D.

(** [recur] fails only where no solution lies. *)
Definition exhaustive (cw : Crossword)
           (recur : state -> res (option dict) * state) : Prop :=
  forall s s', recur s = (Ret None, s') ->
  forall sol, solution_in cw (domains s) sol -> extends sol (assignment s) -> False.

(** Every slot of the puzzle has an entry in the store. *)
Definition has_domains (cw : Crossword) (D : store) : Prop :=
  forall v, In v (variables cw) -> lookup v D <> None.

(** Every word of a domain has the length of its slot. *)
Definition node_consistent (cw : Crossword) (D : store) : Prop :=
  forall v w, In v (variables cw) -> In w (dom v D) ->
    String.length w = Slot.length v.

(** No domain is larger than the sentinel. *)
Definition below_sentinel (cw : Crossword) (D : store) : Prop :=
  forall v, In v (variables cw) -> (domain_size D v <= sentinel)%N.

(** [D'] has the entries of [D], each with some of its words. *)
Definition shrinks (D D' : store) : Prop :=
  forall v, (lookup v D' = None <-> lookup v D = None) /\
            incl (dom v D') (dom v D) /\
            List.length (dom v D') <= List.length (dom v D).

(** Modelled from the spec: the offsets of an overlap are character
    indices inside the two slots. *)
Definition offsets_in_slots (cw : Crossword) : Prop :=
  forall x y i j, overlaps cw x y = Some (i, j) ->
    i < Slot.length x /\ j < Slot.length y.

(** The entries of the assignment are slots of the puzzle with words of
    their domains. *)
Definition assignment_ok (cw : Crossword) (D : store) (a : dict) : Prop :=
  forall v w, In (v, w) a -> In v (variables cw) /\ In w (dom v D).

(** [recur] raises nothing on a well-formed state. *)
Definition quiet (cw : Crossword)
           (recur : state -> res (option dict) * state) : Prop :=
  forall s, has_domains cw (domains s) -> node_consistent cw (domains s) ->
    below_sentinel cw (domains s) -> assignment_ok cw (domains s) (assignment s) ->
    forall e, fst (recur s) <> Raise e.

(** ** Concrete puzzles

    Two crossing slots of length 3, used to run the definitions. *)

Module Example.

(** Across from row 1, column 0; down from row 0, column 1; down from
    row 0, column 0. *)
Definition A : Slot.t := Slot.mk 1 0 ACROSS 3.
Definition B : Slot.t := Slot.mk 0 1 DOWN 3.
Definition C : Slot.t := Slot.mk 0 0 DOWN 3.

(** The overlaps of a grid with the two slots [a] and [b], where [a[i]]
    and [b[j]] are the same cell. *)
Definition cross (a b : Slot.t) (i j : nat) (x y : Slot.t) : option (nat * nat) :=
  if Slot.eq_dec x a then (if Slot.eq_dec y b then Some (i, j) else None)
  else if Slot.eq_dec x b then (if Slot.eq_dec y a then Some (j, i) else None)
  else None.

Definition puzzle (a b : Slot.t) (i j : nat) (vocabulary : list string) : Crossword :=
  {| variables := [a; b];
     words := vocabulary;
     overlaps_keys := [(a, b); (b, a)];
     overlaps := cross a b i j |}.

(** The scenario of the specification: [A] and [B] cross at their
    middle letters. *)
Definition cw : Crossword :=
  puzzle A B 1 1 ["CAT"; "DOG"; "BAT"; "TAN"; "TEN"; "BIT"]%string.

(** A puzzle that arc consistency proves unsatisfiable: the first letter
    of [A] is the second letter of [C], and the only word is CAT. *)
Definition cw_unsat : Crossword := puzzle A C 0 1 ["CAT"]%string.

(** One slot, no overlap. *)
Definition single (vocabulary : list string) : Crossword :=
  {| variables := [A];
     words := vocabulary;
     overlaps_keys := [];
     overlaps := fun _ _ => None |}.

End Example.

(** A store for the puzzle [Example.cw] with the candidates of the
    scenario of the specification. *)
Definition example_store : store :=
  [(Example.A, ["CAT"; "DOG"; "BAT"]%string);
   (Example.B, ["TAN"; "TEN"; "BIT"]%string)].

(** ** [letter_grid]

    The grid is a list of rows of cells, a cell being [None] or a
    character; [height] and [width] are fields of the crossword that only
    the rendering reads, taken here as arguments. *)

Definition grid : Type := list (list (option ascii)).

(** [l[n] = x] on a list that has an index [n] (the callers test it). *)
Fixpoint list_set {A : Type} (n : nat) (x : A) (l : list A) : list A :=
  match l, n with
  | [], _ => []
  | _ :: t, 0 => x :: t
  | h :: t, S n' => h :: list_set n' x t
  end.

(** [letters[i][j] = c]; the rows are distinct list objects. *)
Definition set_cell (i j : nat) (c : ascii) (letters : grid) : res grid :=
  match nth_error letters i with
  | None => Raise IndexError
  | Some row =>
      if j <? List.length row
      then Ret (list_set i (list_set j (Some c) row) letters)
      else Raise IndexError
  end.

(** [letters[i][j]] *)
Definition get_cell (letters : grid) (i j : nat) : option (option ascii) :=
  match nth_error letters i with
  | None => None
  | Some row => nth_error row j
  end.

(** The cell of the [k]-th letter of a slot: [k] rows down for [DOWN],
    [k] columns right for [ACROSS]. *)
Definition cell (variable : Slot.t) (k : nat) : nat * nat :=
  (Slot.i variable + match Slot.direction variable with DOWN => k | ACROSS => 0 end,
   Slot.j variable + match Slot.direction variable with ACROSS => k | DOWN => 0 end).

Arguments cell : simpl never.

(** [for k in range(len(word))], from index [k] on; [rest] is [word[k:]],
    so that its first character is [word[k]]. *)
Fixpoint write_word (variable : Slot.t) (rest : string) (k : nat) (letters : grid)
  : res grid :=
  match rest with
  | EmptyString => Ret letters
  | String c rest' =>
      g <- set_cell (fst (cell variable k)) (snd (cell variable k)) c letters ;;
      write_word variable rest' (S k) g
  end.

Fixpoint write_items (items : dict) (letters : grid) : res grid :=
  match items with
  | [] => Ret letters
  | (variable, word) :: rest =>
      g <- write_word variable word 0 letters ;;
      write_items rest g
  end.

Definition letter_grid (height width : nat) (a : dict) : res grid :=
  write_items a (repeat (repeat None width) height).

(** A grid of [height] rows of [width] cells. *)
Definition rectangular (height width : nat) (letters : grid) : Prop :=
  List.length letters = height /\
  forall row, In row letters -> List.length row = width.

(** Every letter of every word of [a] falls inside the grid. *)
Definition in_grid (height width : nat) (a : dict) : Prop :=
  forall v word k c, In (v, word) a -> String.get k word = Some c ->
    fst (cell v k) < height /\ snd (cell v k) < width.

(** Some entry of [items] puts the character [c] in the cell [rc]. *)
Definition writes (items : dict) (rc : nat * nat) (c : ascii) : Prop :=
  exists v word k, In (v, word) items /\ String.get k word = Some c /\ cell v k = rc.

(** The arcs that a caller passes to [ac3] are keys of the overlaps
    dict, so that every subscript [overlaps[x, y]] of [revise] finds an
    entry; with [arcs=None] the arcs are the keys themselves. *)
Definition arcs_are_keys (cw : Crossword) (arcs : option (list arc)) : Prop :=
  forall l, arcs = Some l -> incl l (overlaps_keys cw).

(** Modelled from the spec: the overlap relation is computed in
    [crossword.py]; whenever two distinct slots of the puzzle share a
    cell, the entry of the pair is the pair of offsets of that cell. *)
Definition overlaps_geometric (cw : Crossword) : Prop :=
  forall x y k1 k2, In x (variables cw) -> In y (variables cw) -> x <> y ->
    k1 < Slot.length x -> k2 < Slot.length y -> cell x k1 = cell y k2 ->
    overlaps cw x y = Some (k1, k2).

(** Modelled from the spec: the slots are read off the structure of the
    puzzle in [crossword.py]; every cell of every slot lies inside the
    [height] by [width] grid. *)
Definition slots_in_grid (height width : nat) (cw : Crossword) : Prop :=
  forall v k, In v (variables cw) -> k < Slot.length v ->
    fst (cell v k) < height /\ snd (cell v k) < width.

(** ** Measures of the two heuristics *)


(** How many words of the domain of [o] disagree with the word [w] of
    [var] at the overlap, for a slot [o] that counts. *)
Definition ruled_out_in (cw : Crossword) (var : Slot.t) (a : dict) (D : store)
           (w : string) (o : Slot.t) : nat :=
  if negb (dict_mem o a) && negb (Slot.eqb o var) then
    match overlaps cw var o with
    | Some (i, j) => List.length (filter (fun u => negb (agreeb i j w u)) (dom o D))
    | None => 0
    end
  else 0.

(** The number that [order_domain_values] sorts by. *)
Definition ruled_out (cw : Crossword) (var : Slot.t) (a : dict) (D : store)
           (w : string) : nat :=
  list_sum (map (ruled_out_in cw var a D w) (variables cw)).

(** Two entries of the assignment never put different letters in one
    cell. *)
Definition cells_agree (a : dict) : Prop :=
  forall v1 w1 v2 w2 k1 k2 c1 c2,
    In (v1, w1) a -> In (v2, w2) a -> cell v1 k1 = cell v2 k2 ->
    String.get k1 w1 = Some c1 -> String.get k2 w2 = Some c2 -> c1 = c2.

(** [D'] has the entries of [D], each with some of its words filtered
    out. *)
Definition filtered (D D' : store) : Prop :=
  forall v, exists f, lookup v D' = option_map (filter f) (lookup v D).

(** * Proofs *)

(** ** Outcomes and strings *)

Lemma index_Ret w k c : index w k = Ret c <-> String.get k w = Some c.
Proof.
  unfold index. destruct (String.get k w); split; intro H; inversion H; reflexivity.
Qed.

Lemma index_not_OutOfFuel w k : index w k <> OutOfFuel.
Proof. unfold index. destruct (String.get k w); discriminate. Qed.

Lemma get_in_range w : forall k, k < String.length w -> exists c, String.get k w = Some c.
Proof.
  induction w as [|a w IH]; simpl; intros k Hk.
  - lia.
  - destruct k as [|k]; [eauto|]. apply IH. lia.
Qed.

Lemma agreeb_agree i j w u : agreeb i j w u = true <-> agree i j w u.
Proof.
  unfold agreeb, agree. split.
  - destruct (String.get i w) as [a|]; [|discriminate].
    destruct (String.get j u) as [b|]; [|discriminate].
    intro H. apply Ascii.eqb_eq in H. subst. eauto.
  - intros [c [-> ->]]. apply Ascii.eqb_refl.
Qed.

Lemma supported_spec i j dy w :
  supported i j dy w = true <-> exists u, In u dy /\ agree i j w u.
Proof.
  unfold supported. rewrite existsb_exists.
  split; intros [u [Hu H]]; exists u; split; auto; apply agreeb_agree; assumption.
Qed.

(** ** Lists *)

Lemma filter_filter {A} (f g : A -> bool) l :
  filter f (filter g l) = filter (fun x => g x && f x) l.
Proof.
  induction l as [|a l IH]; simpl; [reflexivity|].
  destruct (g a); simpl; [destruct (f a)|]; rewrite IH; reflexivity.
Qed.

Lemma remove_word_length_le w d : List.length (remove_word w d) <= List.length d.
Proof. apply filter_length_le. Qed.

Lemma remove_word_length_lt w d :
  In w d -> List.length (remove_word w d) < List.length d.
Proof.
  unfold remove_word. induction d as [|a d IH]; simpl; [tauto|].
  intros [->|Hin].
  - rewrite String.eqb_refl. simpl.
    pose proof (filter_length_le (fun u => negb (String.eqb u w)) d). lia.
  - specialize (IH Hin). destruct (negb (String.eqb a w)); simpl; lia.
Qed.

(** ** The store *)

Lemma lookup_update_with f x z D :
  lookup z (update_with f x D) =
  if Slot.eq_dec z x then option_map f (lookup z D) else lookup z D.
Proof.
  induction D as [|[k d] D IH]; simpl.
  - destruct (Slot.eq_dec z x); reflexivity.
  - destruct (Slot.eq_dec x k) as [->|Hxk]; simpl.
    + destruct (Slot.eq_dec z k); reflexivity.
    + destruct (Slot.eq_dec z k) as [->|Hzk].
      * destruct (Slot.eq_dec k x); [congruence|reflexivity].
      * exact IH.
Qed.

Lemma lookup_update_with_same f x D :
  lookup x (update_with f x D) = option_map f (lookup x D).
Proof. rewrite lookup_update_with. destruct (Slot.eq_dec x x); congruence. Qed.

Lemma lookup_update_with_other f x z D :
  z <> x -> lookup z (update_with f x D) = lookup z D.
Proof. intro H. rewrite lookup_update_with. destruct (Slot.eq_dec z x); congruence. Qed.

Lemma update_with_compose f g x D :
  update_with f x (update_with g x D) = update_with (fun d => f (g d)) x D.
Proof.
  induction D as [|[k d] D IH]; simpl; [reflexivity|].
  destruct (Slot.eq_dec x k) as [->|Hxk]; simpl.
  - destruct (Slot.eq_dec k k); congruence.
  - destruct (Slot.eq_dec x k); [congruence|]. rewrite IH. reflexivity.
Qed.

Lemma update_with_ext_at f g x D :
  (forall d, lookup x D = Some d -> f d = g d) ->
  update_with f x D = update_with g x D.
Proof.
  induction D as [|[k d] D IH]; simpl; intro H; [reflexivity|].
  destruct (Slot.eq_dec x k) as [->|Hxk].
  - rewrite (H d); reflexivity.
  - rewrite IH; auto.
Qed.

Lemma update_with_id f x D :
  (forall d, lookup x D = Some d -> f d = d) -> update_with f x D = D.
Proof.
  induction D as [|[k d] D IH]; simpl; intro H; [reflexivity|].
  destruct (Slot.eq_dec x k) as [->|Hxk].
  - rewrite (H d); reflexivity.
  - rewrite IH; auto.
Qed.

Lemma keys_update_with f x D : map fst (update_with f x D) = map fst D.
Proof.
  induction D as [|[k d] D IH]; simpl; [reflexivity|].
  destruct (Slot.eq_dec x k); simpl; congruence.
Qed.

Lemma lookup_In x D d : lookup x D = Some d -> In (x, d) D.
Proof.
  induction D as [|[k e] D IH]; simpl; [discriminate|].
  destruct (Slot.eq_dec x k) as [->|]; intro H.
  - inversion H. auto.
  - auto.
Qed.

Lemma lookup_None_keys x D : lookup x D = None <-> ~ In x (map fst D).
Proof.
  induction D as [|[k e] D IH]; simpl; [tauto|].
  destruct (Slot.eq_dec x k) as [->|Hxk].
  - split; [discriminate|]. intro H. exfalso. apply H. auto.
  - rewrite IH. split; intros H; [intros [E|E]; [congruence|auto]|auto].
Qed.

Lemma total_size_update_with_le f x D :
  (forall d, List.length (f d) <= List.length d) ->
  total_size (update_with f x D) <= total_size D.
Proof.
  unfold total_size. intro Hf.
  induction D as [|[k d] D IH]; simpl; [lia|].
  destruct (Slot.eq_dec x k); simpl.
  - specialize (Hf d). lia.
  - lia.
Qed.

Lemma total_size_update_with_lt f x D d :
  lookup x D = Some d -> List.length (f d) < List.length d ->
  total_size (update_with f x D) < total_size D.
Proof.
  unfold total_size.
  induction D as [|[k e] D IH]; simpl; [discriminate|].
  destruct (Slot.eq_dec x k); simpl; intros H Hlt.
  - inversion H; subst. lia.
  - specialize (IH H Hlt). lia.
Qed.

(** ** Node consistency *)

Section NodeConsistency.
Context (cw : Crossword).

Lemma prune_lengths_update var elements : forall D,
  prune_lengths var elements D =
  update_with (filter (fun u => negb (prunes var elements u))) var D.
Proof.
  unfold prune_lengths.
  induction elements as [|e es IH]; intro D; simpl.
  - symmetry. apply update_with_id. intros d _.
    induction d as [|a d IHd]; simpl; congruence.
  - fold (length_ok var e). destruct (length_ok var e) eqn:E.
    + rewrite IH. apply update_with_ext_at. intros d _.
      apply filter_ext. intro u. reflexivity.
    + rewrite IH, update_with_compose. apply update_with_ext_at. intros d _.
      unfold remove_word. rewrite filter_filter. apply filter_ext. intro u.
      cbn [negb andb]. symmetry. apply negb_orb.
Qed.

Lemma lookup_prune_items z items : forall D,
  lookup z (fold_left (fun D item => prune_lengths (fst item) (snd item) D) items D) =
  option_map
    (filter (fun u => negb (existsb (fun it => Slot.eqb (fst it) z && prunes z (snd it) u) items)))
    (lookup z D).
Proof.
  induction items as [|[k e] items IH]; intro D; simpl.
  - destruct (lookup z D) as [d|]; simpl; [|reflexivity].
    f_equal. induction d as [|a d IHd]; simpl; congruence.
  - rewrite IH, prune_lengths_update, lookup_update_with.
    unfold Slot.eqb. destruct (Slot.eq_dec z k) as [->|Hzk].
    + destruct (Slot.eq_dec k k); [|congruence].
      destruct (lookup k D) as [d|]; simpl; [|reflexivity].
      rewrite filter_filter. f_equal. apply filter_ext. intro u.
      simpl. rewrite negb_orb. reflexivity.
    + destruct (Slot.eq_dec k z); [congruence|]. reflexivity.
Qed.

(** Over the items of the store itself, a word of the domain of [var] is
    removed by some turn of the loops iff its length is wrong. *)
Lemma pruned_by_items (D : store) (var : Slot.t) (d : list string) (u : string) :
  lookup var D = Some d -> In u d ->
  existsb (fun it => Slot.eqb (fst it) var && prunes var (snd it) u) D =
  negb (length_ok var u).
Proof.
  intros Hd Hu. destruct (length_ok var u) eqn:E; simpl.
  - apply not_true_is_false. intro H.
    apply existsb_exists in H. destruct H as [it [_ H]].
    apply andb_true_iff in H. destruct H as [_ H].
    apply existsb_exists in H. destruct H as [e [_ H]].
    apply andb_true_iff in H. destruct H as [H1 H2].
    apply String.eqb_eq in H2. subst. rewrite E in H1. discriminate.
  - apply existsb_exists. exists (var, d). split.
    + apply lookup_In. assumption.
    + simpl. unfold Slot.eqb. destruct (Slot.eq_dec var var); [|congruence]. simpl.
      apply existsb_exists. exists u. split; [assumption|].
      rewrite E, String.eqb_refl. reflexivity.
Qed.

Lemma node_consistent_In D var d w :
  lookup var D = Some d ->
  (In w (dom var (enforce_node_consistency D)) <->
   In w d /\ String.length w = Slot.length var).
Proof.
  intro H. unfold dom, enforce_node_consistency.
  rewrite lookup_prune_items, H. simpl. rewrite filter_In. split.
  - intros [Hw Hp]. split; [assumption|].
    rewrite (pruned_by_items D var d w H Hw), negb_involutive in Hp.
    apply Nat.eqb_eq. exact Hp.
  - intros [Hw Hl]. split; [assumption|].
    rewrite (pruned_by_items D var d w H Hw), negb_involutive.
    apply Nat.eqb_eq. exact Hl.
Qed.

Lemma keys_enforce_node_consistency D x :
  lookup x (enforce_node_consistency D) = None <-> lookup x D = None.
Proof.
  unfold enforce_node_consistency. rewrite lookup_prune_items.
  destruct (lookup x D); simpl; split; congruence.
Qed.

(** C5. After [enforce_node_consistency] the domain of every slot is its
    former domain filtered by the length test: every word that stays has
    the length of the slot, and exactly the words of another length are
    gone (no slot is added to or dropped from the store). *)
Theorem enforce_node_consistency_filters (D : store) (var : Slot.t) :
  lookup var (enforce_node_consistency D) =
  option_map (filter (length_ok var)) (lookup var D).
Proof.
  unfold enforce_node_consistency. rewrite lookup_prune_items.
  destruct (lookup var D) as [d|] eqn:Hd; simpl; [|reflexivity].
  f_equal. apply filter_ext_in. intros u Hu.
  rewrite (pruned_by_items D var d u Hd Hu). apply negb_involutive.
Qed.

End NodeConsistency.

(** ** [revise] *)

Section Revise.
Context (cw : Crossword).

Lemma has_support_Ret w i j dy b :
  has_support w i j dy = Ret b -> b = supported i j dy w.
Proof.
  unfold supported. induction dy as [|u dy IH]; simpl.
  - intro H. inversion H. reflexivity.
  - unfold bind, index, agreeb at 1.
    destruct (String.get i w) as [a|]; [|discriminate].
    destruct (String.get j u) as [c|]; [|discriminate].
    destruct (Ascii.eqb a c); simpl; intro H.
    + inversion H. reflexivity.
    + apply IH. assumption.
Qed.

Lemma has_support_not_OutOfFuel w i j dy : has_support w i j dy <> OutOfFuel.
Proof.
  induction dy as [|u dy IH]; simpl; [discriminate|].
  unfold bind, index.
  destruct (String.get i w); [|discriminate].
  destruct (String.get j u); [|discriminate].
  destruct (Ascii.eqb _ _); [discriminate|assumption].
Qed.

Lemma has_support_total w i j dy :
  (forall u, In u dy -> i < String.length w /\ j < String.length u) ->
  exists b, has_support w i j dy = Ret b.
Proof.
  induction dy as [|u dy IH]; simpl; intro H; [eauto|].
  destruct (H u (or_introl eq_refl)) as [Hi Hj].
  destruct (get_in_range _ _ Hi) as [a Ha].
  destruct (get_in_range _ _ Hj) as [c Hc].
  unfold bind, index. rewrite Ha, Hc.
  destruct (Ascii.eqb a c); [eauto|]. apply IH. auto.
Qed.

Lemma filter_all_true {A} (d : list A) : filter (fun _ => true) d = d.
Proof. induction d as [|a d IH]; simpl; congruence. Qed.

Lemma revise_loop_Ret x y i j (Hxy : x <> y) : forall snap revised D b D',
  revise_loop x y i j snap revised D = (Ret b, D') ->
  D' = update_with
         (filter (fun u => negb (existsb
            (fun w => String.eqb u w && negb (supported i j (dom y D) w)) snap)))
         x D /\
  b = revised || existsb (fun w => negb (supported i j (dom y D) w)) snap.
Proof.
  induction snap as [|w rest IH]; intros revised D b D' H; simpl in H.
  - inversion H; subst. split.
    + symmetry. apply update_with_id. intros d _. apply filter_all_true.
    + simpl. rewrite orb_false_r. reflexivity.
  - unfold getitem, dom in *. destruct (lookup y D) as [dy|] eqn:Hy; simpl in H;
      [|discriminate].
    destruct (has_support w i j dy) as [[|]|e|] eqn:Hs; simpl in H; try discriminate;
      apply has_support_Ret in Hs; apply IH in H; destruct H as [-> ->].
    + rewrite Hy. split.
      * apply update_with_ext_at. intros d _. apply filter_ext. intro u.
        simpl. rewrite <- Hs. simpl. rewrite andb_false_r. reflexivity.
      * simpl. rewrite <- Hs. reflexivity.
    + rewrite lookup_update_with_other, Hy by congruence.
      rewrite update_with_compose. split.
      * apply update_with_ext_at. intros d _. unfold remove_word.
        rewrite filter_filter. apply filter_ext. intro u.
        simpl. rewrite <- Hs. simpl. rewrite andb_true_r, negb_orb. reflexivity.
      * simpl. rewrite <- Hs. simpl. rewrite orb_true_r. reflexivity.
Qed.

(** What a call of [revise] that returns has done, for distinct slots
    with an overlap entry. *)
Lemma revise_Ret x y i j D b D' :
  x <> y -> overlaps cw x y = Some (i, j) -> revise cw x y D = (Ret b, D') ->
  exists dx, lookup x D = Some dx /\
    D' = update_with (filter (supported i j (dom y D))) x D /\
    b = existsb (fun w => negb (supported i j (dom y D) w)) dx.
Proof.
  intros Hxy Ho H. unfold revise in H. rewrite Ho in H.
  unfold getitem in H. destruct (lookup x D) as [dx|] eqn:Hx; simpl in H; [|discriminate].
  apply revise_loop_Ret in H; [|assumption]. destruct H as [-> ->].
  exists dx. split; [reflexivity|]. split; [|reflexivity].
  apply update_with_ext_at. intros d Hd. rewrite Hx in Hd. inversion Hd; subst d.
  apply filter_ext_in. intros u Hu.
  destruct (supported i j (dom y D) u) eqn:E.
  - apply negb_true_iff. apply not_true_is_false. intro H.
    apply existsb_exists in H. destruct H as [w [_ H]].
    apply andb_true_iff in H. destruct H as [H1 H2].
    apply String.eqb_eq in H1. subst w. rewrite E in H2. discriminate.
  - apply negb_false_iff. apply existsb_exists. exists u. split; [assumption|].
    rewrite String.eqb_refl, E. reflexivity.
Qed.

Lemma revise_no_overlap x y D :
  overlaps cw x y = None -> revise cw x y D = (Ret false, D).
Proof. intro H. unfold revise. rewrite H. reflexivity. Qed.

Lemma revise_loop_total x y i j (Hxy : x <> y) dy : forall snap revised D,
  lookup y D = Some dy ->
  (forall w u, In w snap -> In u dy -> i < String.length w /\ j < String.length u) ->
  exists b D', revise_loop x y i j snap revised D = (Ret b, D').
Proof.
  induction snap as [|w rest IH]; intros revised D Hy Hr; simpl; [eauto|].
  unfold getitem. rewrite Hy. simpl.
  destruct (has_support_total w i j dy) as [b Hb].
  { intros u Hu. apply Hr; simpl; auto. }
  rewrite Hb. destruct b; apply IH; simpl in *; auto.
  rewrite lookup_update_with_other by congruence. assumption.
Qed.

(** Sizes: [revise] never grows the store, shrinks it when it answers
    [True], leaves it alone when it answers [False], and needs no fuel. *)
Lemma revise_loop_size x y i j : forall snap revised D r D',
  revise_loop x y i j snap revised D = (r, D') ->
  (revised = false -> incl snap (dom x D)) ->
  total_size D' <= total_size D /\
  (r = Ret true -> revised = false -> total_size D' < total_size D) /\
  (r = Ret false -> D' = D /\ revised = false) /\
  r <> OutOfFuel /\
  map fst D' = map fst D.
Proof.
  induction snap as [|w rest IH]; intros revised D r D' H Hincl; simpl in H.
  - inversion H; subst. repeat split; try lia; try congruence; try discriminate.
  - destruct (dy <- getitem y D;; has_support w i j dy) as [[|]|e|] eqn:Hs.
    + apply IH in H; [exact H|]. intros E u Hu. apply Hincl; simpl; auto.
    + apply IH in H; [|discriminate].
      destruct H as (Hle & _ & Hf & Hfuel & Hkeys).
      pose proof (total_size_update_with_le (remove_word w) x D (remove_word_length_le w)) as Hle1.
      rewrite keys_update_with in Hkeys.
      split; [lia|]. split; [|split; [|split; assumption]].
      * intros _ E. specialize (Hincl E w (or_introl eq_refl)).
        unfold dom in Hincl. destruct (lookup x D) as [dx|] eqn:Hx; [|destruct Hincl].
        pose proof (total_size_update_with_lt (remove_word w) x D dx Hx
                      (remove_word_length_lt w dx Hincl)). lia.
      * intro E. destruct (Hf E) as [_ F]. discriminate.
    + inversion H; subst. simpl. repeat split; try lia; try discriminate.
    + exfalso. unfold getitem in Hs. destruct (lookup y D); simpl in Hs; [|discriminate].
      revert Hs. apply has_support_not_OutOfFuel.
Qed.

Lemma revise_size x y D r D' :
  revise cw x y D = (r, D') ->
  total_size D' <= total_size D /\
  (r = Ret true -> total_size D' < total_size D) /\
  (r = Ret false -> D' = D) /\
  r <> OutOfFuel /\
  map fst D' = map fst D.
Proof.
  unfold revise. destruct (overlaps cw x y) as [[i j]|].
  - unfold getitem. destruct (lookup x D) as [dx|] eqn:Hx; simpl; intro H.
    + apply revise_loop_size in H.
      * destruct H as (H1 & H2 & H3 & H4 & H5). repeat split; auto.
        intro E. apply H3. assumption.
      * intros _. unfold dom. rewrite Hx. apply incl_refl.
    + inversion H; subst. repeat split; try lia; try discriminate.
  - intro H. inversion H; subst. repeat split; try lia; try discriminate.
Qed.

(** C6. For distinct slots [x] and [y] that have domains: with an overlap
    [(i, j)] whose offsets lie inside the words of both domains,
    [revise(x, y)] returns, leaves in [domains[x]] exactly the words that
    some word of [domains[y]] agrees with at the offsets, touches no other
    domain, and answers [True] iff a word was removed; with no overlap it
    answers [False] and changes nothing. *)
Theorem revise_spec (x y : Slot.t) (D : store) (dx dy : list string) :
  x <> y -> lookup x D = Some dx -> lookup y D = Some dy ->
  match overlaps cw x y with
  | Some (i, j) =>
      (forall w, In w dx -> i < String.length w) ->
      (forall u, In u dy -> j < String.length u) ->
      exists b D',
        revise cw x y D = (Ret b, D') /\
        lookup x D' = Some (filter (supported i j dy) dx) /\
        (forall z, z <> x -> lookup z D' = lookup z D) /\
        (b = true <-> exists w, In w dx /\ ~ In w (filter (supported i j dy) dx))
  | None => revise cw x y D = (Ret false, D)
  end.
Proof.
  intros Hxy Hx Hy. destruct (overlaps cw x y) as [[i j]|] eqn:Ho.
  - intros Hi Hj.
    destruct (revise_loop_total x y i j Hxy dy dx false D Hy) as (b & D' & H).
    { intros w u Hw Hu. split; auto. }
    assert (Hrev : revise cw x y D = (Ret b, D')).
    { unfold revise, getitem. rewrite Ho, Hx. exact H. }
    exists b, D'. split; [exact Hrev|].
    destruct (revise_Ret x y i j D b D' Hxy Ho Hrev) as (dx' & Hx' & -> & ->).
    rewrite Hx in Hx'. inversion Hx'; subst dx'. clear Hx'.
    unfold dom. rewrite Hy. split; [|split].
    + rewrite lookup_update_with_same, Hx. reflexivity.
    + intros z Hz. apply lookup_update_with_other. assumption.
    + rewrite existsb_exists. split; intros [w [Hw H1]]; exists w; split; auto.
      * rewrite filter_In. apply negb_true_iff in H1. intros [_ H2]. congruence.
      * apply negb_true_iff. apply not_true_is_false. intro H2. apply H1.
        apply filter_In. auto.
  - apply revise_no_overlap. assumption.
Qed.

End Revise.

Lemma revise_spec_witness :
  exists b D',
    revise Example.cw Example.A Example.B
           [(Example.A, ["CAT"; "DOG"]%string); (Example.B, ["TAN"]%string)] = (Ret b, D') /\
    lookup Example.A D' = Some ["CAT"%string] /\
    (forall z, z <> Example.A -> lookup z D' =
       lookup z [(Example.A, ["CAT"; "DOG"]%string); (Example.B, ["TAN"]%string)]) /\
    (b = true <-> exists w, In w ["CAT"; "DOG"]%string /\ ~ In w ["CAT"%string]).
Proof.
  refine (revise_spec Example.cw Example.A Example.B
            [(Example.A, ["CAT"; "DOG"]%string); (Example.B, ["TAN"]%string)]
            ["CAT"; "DOG"]%string ["TAN"%string] _ eq_refl eq_refl _ _).
  - discriminate.
  - intros w [<-|[<-|[]]]; simpl; lia.
  - intros u [<-|[]]; simpl; lia.
Defined.

(** ** [ac3] *)

Section AC3.
Context (cw : Crossword).

Lemma requeue_length x y : List.length (requeue cw x y) <= List.length (variables cw).
Proof.
  unfold requeue, neighbors. rewrite length_map.
  eapply Nat.le_trans; [apply filter_length_le|]. apply filter_length_le.
Qed.

Lemma In_requeue x y a :
  In (a, x) (requeue cw x y) <->
  In a (variables cw) /\ a <> x /\ overlaps cw a x <> None /\ a <> y.
Proof.
  unfold requeue, neighbors, Slot.eqb. rewrite in_map_iff. split.
  - intros [n [E H]]. inversion E; subst n. clear E.
    apply filter_In in H. destruct H as [H Hy].
    apply filter_In in H. destruct H as [Hv H].
    apply andb_true_iff in H. destruct H as [Hx Ho].
    destruct (Slot.eq_dec a y); [discriminate|].
    destruct (Slot.eq_dec a x); [discriminate|].
    destruct (overlaps cw a x); [|discriminate].
    repeat split; auto. discriminate.
  - intros (Hv & Hx & Ho & Hy). exists a. split; [reflexivity|].
    apply filter_In. split.
    + apply filter_In. split; [assumption|].
      destruct (Slot.eq_dec a x); [congruence|].
      destruct (overlaps cw a x); [reflexivity|congruence].
    + destruct (Slot.eq_dec a y); [congruence|reflexivity].
Qed.

Lemma getitem_not_OutOfFuel x D : getitem x D <> OutOfFuel.
Proof. unfold getitem. destruct (lookup x D); discriminate. Qed.

(** The measure that each turn of the loop decreases: pending arcs, plus
    one more than the number of slots for each word still in the store. *)
Lemma ac3_loop_fuel_enough : forall fuel queue D,
  List.length queue + S (List.length (variables cw)) * total_size D < fuel ->
  fst (ac3_loop cw fuel queue D) <> OutOfFuel.
Proof.
  induction fuel as [|fuel IH]; intros queue D Hm.
  - lia.
  - destruct queue as [|[x y] queue]; simpl; [discriminate|].
    destruct (revise cw x y D) as [r D1] eqn:Hr.
    destruct (revise_size cw x y D r D1 Hr) as (Hle & Hlt & Heq & Hfuel & _).
    destruct r as [[|]|e|]; simpl; try discriminate; try congruence.
    + destruct (getitem x D1) as [dx|e|] eqn:Hg; simpl; try discriminate.
      * destruct (List.length dx =? 0); simpl; [discriminate|].
        apply IH. rewrite length_app.
        pose proof (requeue_length x y). specialize (Hlt eq_refl).
        simpl in Hm.
        assert (S (List.length (variables cw)) * total_size D1 +
                S (List.length (variables cw)) <=
                S (List.length (variables cw)) * total_size D) by nia.
        lia.
      * exfalso. revert Hg. apply getitem_not_OutOfFuel.
    + rewrite (Heq eq_refl). apply IH. simpl in Hm. lia.
Qed.

Lemma ac3_loop_more_fuel : forall fuel queue D r D',
  ac3_loop cw fuel queue D = (r, D') -> r <> OutOfFuel ->
  forall k, ac3_loop cw (fuel + k) queue D = (r, D').
Proof.
  induction fuel as [|fuel IH]; intros queue D r D' H Hr k.
  - destruct queue as [|[x y] queue]; simpl in H.
    + destruct k; simpl; assumption.
    + inversion H; subst. congruence.
  - destruct queue as [|[x y] queue]; simpl in *; [assumption|].
    destruct (revise cw x y D) as [[[|]|e|] D1]; try assumption.
    + destruct (getitem x D1) as [dx|e|]; try assumption.
      destruct (List.length dx =? 0); [assumption|]. apply IH; assumption.
    + apply IH; assumption.
Qed.

(** C9. [ac3] terminates on every store and every initial arc list
    (given or default): there is an amount of fuel from which on the
    loop reaches its end with one and the same outcome, which is a
    returned boolean or a raised exception, never a loop cut short. *)
Theorem ac3_terminates (arcs : option (list arc)) (D : store) :
  exists n r D',
    r <> OutOfFuel /\
    forall fuel, n <= fuel -> ac3 cw fuel arcs D = (r, D').
Proof.
  unfold ac3. set (q := initial_queue cw arcs).
  exists (ac3_fuel cw q D).
  destruct (ac3_loop cw (ac3_fuel cw q D) q D) as [r D'] eqn:H.
  exists r, D'.
  assert (Hr : r <> OutOfFuel).
  { pose proof (ac3_loop_fuel_enough (ac3_fuel cw q D) q D) as E.
    rewrite H in E. apply E. unfold ac3_fuel. lia. }
  split; [exact Hr|].
  intros fuel Hfuel.
  replace fuel with (ac3_fuel cw q D + (fuel - ac3_fuel cw q D)) by lia.
  apply ac3_loop_more_fuel; assumption.
Qed.

Lemma ac3_loop_keys : forall fuel queue D r D',
  ac3_loop cw fuel queue D = (r, D') -> map fst D' = map fst D.
Proof.
  induction fuel as [|fuel IH]; intros queue D r D' H;
    destruct queue as [|[x y] queue]; simpl in H; try (inversion H; reflexivity).
  destruct (revise cw x y D) as [r1 D1] eqn:Hr.
  destruct (revise_size cw x y D r1 D1 Hr) as (_ & _ & _ & _ & Hk).
  rewrite <- Hk.
  destruct r1 as [[|]|e|]; try (inversion H; reflexivity).
  - destruct (getitem x D1) as [dx|e|]; try (inversion H; reflexivity).
    destruct (List.length dx =? 0); [inversion H; reflexivity|].
    eapply IH; eassumption.
  - eapply IH; eassumption.
Qed.

(** A failing [ac3] leaves the domain of a slot of the puzzle empty. *)
Lemma ac3_loop_false :
  (forall x y i j, overlaps cw x y = Some (i, j) -> In x (variables cw)) ->
  forall fuel queue D D',
  ac3_loop cw fuel queue D = (Ret false, D') ->
  exists x, In x (variables cw) /\ lookup x D' = Some [].
Proof.
  intro Hwf.
  induction fuel as [|fuel IH]; intros queue D D' H;
    destruct queue as [|[x y] queue]; simpl in H; try discriminate.
  destruct (revise cw x y D) as [r1 D1] eqn:Hr.
  destruct r1 as [[|]|e|]; try discriminate.
  - unfold getitem in H. destruct (lookup x D1) as [dx|] eqn:Hx; [|discriminate].
    destruct dx as [|w dx]; simpl in H.
    + inversion H; subst. exists x. split; [|assumption].
      unfold revise in Hr. destruct (overlaps cw x y) as [[i j]|] eqn:Ho.
      * eapply Hwf; eassumption.
      * discriminate.
    + eapply IH; eassumption.
  - eapply IH; eassumption.
Qed.

Lemma agree_sym i j w u : agree i j w u -> agree j i u w.
Proof. intros [c [H1 H2]]. exists c. auto. Qed.

Lemma ac3_loop_arc_consistent (Hwf : overlaps_wf cw) : forall fuel queue D D',
  ac3_loop cw fuel queue D = (Ret true, D') ->
  (forall x y i j, overlaps cw x y = Some (i, j) ->
     In (x, y) queue \/ arc_consistent D x y i j) ->
  forall x y i j, overlaps cw x y = Some (i, j) -> arc_consistent D' x y i j.
Proof.
  induction fuel as [|fuel IH]; intros queue D D' H Hinv;
    destruct queue as [|[x0 y0] queue]; simpl in H; try discriminate.
  - inversion H; subst. intros x y i j Ho.
    destruct (Hinv x y i j Ho) as [[]|Hc]. exact Hc.
  - inversion H; subst. intros x y i j Ho.
    destruct (Hinv x y i j Ho) as [[]|Hc]. exact Hc.
  - destruct (revise cw x0 y0 D) as [r1 D1] eqn:Hr.
    destruct r1 as [[|]|e|]; try discriminate.
    + (* the domain of x0 shrank *)
      destruct (getitem x0 D1) as [dx1|e|] eqn:Hg; try discriminate.
      destruct (List.length dx1 =? 0); [discriminate|].
      destruct (overlaps cw x0 y0) as [[i0 j0]|] eqn:Ho0;
        [|rewrite (revise_no_overlap cw x0 y0 D Ho0) in Hr; discriminate].
      destruct (wf_slots cw Hwf x0 y0 i0 j0 Ho0) as (Hxy0 & Hx0 & Hy0).
      destruct (revise_Ret cw x0 y0 i0 j0 D true D1 Hxy0 Ho0 Hr) as (dx & Hdx & HD1 & _).
      eapply IH; [exact H|]. clear H IH.
      intros a b i j Ho.
      destruct (wf_slots cw Hwf a b i j Ho) as (Hab & Ha & Hb).
      assert (Hnew : arc_consistent D1 x0 y0 i0 j0).
      { intros d w Hd Hw. rewrite HD1, lookup_update_with_same, Hdx in Hd.
        inversion Hd; subst d. apply filter_In in Hw. destruct Hw as [_ Hw].
        apply supported_spec in Hw. destruct Hw as [u [Hu Hag]].
        unfold dom in Hu. destruct (lookup y0 D) as [dy|] eqn:Hy; [|destruct Hu].
        exists dy, u. rewrite HD1, lookup_update_with_other by congruence. auto. }
      destruct (Slot.eq_dec a x0) as [->|Hax0]; destruct (Slot.eq_dec b y0) as [->|Hby0].
      * right. rewrite Ho0 in Ho. inversion Ho; subst. exact Hnew.
      * destruct (Hinv x0 b i j Ho) as [[E|Hq]|Hc].
        { inversion E; congruence. }
        { left. apply in_or_app. auto. }
        { right. intros d w Hd Hw.
          rewrite HD1, lookup_update_with_same, Hdx in Hd. inversion Hd; subst d.
          apply filter_In in Hw. destruct Hw as [Hw _].
          destruct (Hc dx w Hdx Hw) as (dy & u & Hy & Hu & Hag).
          exists dy, u. rewrite HD1, lookup_update_with_other by congruence. auto. }
      * destruct (Hinv a y0 i j Ho) as [[E|Hq]|Hc].
        { inversion E; congruence. }
        { left. apply in_or_app. auto. }
        { right. intros d w Hd Hw.
          rewrite HD1, lookup_update_with_other in Hd by assumption.
          destruct (Hc d w Hd Hw) as (dy & u & Hy & Hu & Hag).
          exists dy, u. rewrite HD1, lookup_update_with_other by congruence. auto. }
      * destruct (Hinv a b i j Ho) as [[E|Hq]|Hc].
        { inversion E; congruence. }
        { left. apply in_or_app. auto. }
        destruct (Slot.eq_dec b x0) as [->|Hbx0].
        { (* an arc into x0 from a slot other than y0 is queued again *)
          destruct (Slot.eq_dec a y0) as [->|Hay0].
          - right. pose proof (wf_sym cw Hwf x0 y0 i0 j0 Ho0) as Hs.
            rewrite Hs in Ho. inversion Ho; subst i j.
            intros d u Hd Hu.
            rewrite HD1, lookup_update_with_other in Hd by congruence.
            destruct (Hc d u Hd Hu) as (dx' & w & Hx' & Hw & Hag).
            rewrite Hdx in Hx'. inversion Hx'; subst dx'.
            exists (filter (supported i0 j0 (dom y0 D)) dx), w.
            rewrite HD1, lookup_update_with_same, Hdx. split; [reflexivity|].
            split; [|assumption]. apply filter_In. split; [assumption|].
            apply supported_spec. exists u. unfold dom. rewrite Hd.
            split; [assumption|]. apply agree_sym. assumption.
          - left. apply in_or_app. right. apply In_requeue.
            repeat split; auto. congruence. }
        { right. intros d w Hd Hw.
          rewrite HD1, lookup_update_with_other in Hd by assumption.
          destruct (Hc d w Hd Hw) as (dy & u & Hy & Hu & Hag).
          exists dy, u. rewrite HD1, lookup_update_with_other by assumption. auto. }
    + (* nothing was removed: the arc taken from the queue is consistent *)
      pose proof (revise_size cw x0 y0 D _ D1 Hr) as (_ & _ & Heq & _).
      specialize (Heq eq_refl). subst D1.
      eapply IH; [exact H|]. clear H IH.
      intros a b i j Ho.
      destruct (Hinv a b i j Ho) as [[E|Hq]|Hc]; auto.
      inversion E; subst a b. right.
      destruct (wf_slots cw Hwf x0 y0 i j Ho) as (Hxy0 & _ & _).
      destruct (revise_Ret cw x0 y0 i j D false D Hxy0 Ho Hr) as (dx & Hdx & _ & Hb).
      intros d w Hd Hw. rewrite Hdx in Hd. inversion Hd; subst d.
      assert (Hs : supported i j (dom y0 D) w = true).
      { destruct (supported i j (dom y0 D) w) eqn:E1; [reflexivity|].
        symmetry in Hb. rewrite <- not_true_iff_false in Hb. exfalso. apply Hb.
        apply existsb_exists. exists w. rewrite E1. auto. }
      apply supported_spec in Hs. destruct Hs as [u [Hu Hag]].
      unfold dom in Hu. destruct (lookup y0 D) as [dy|] eqn:Hy; [|destruct Hu].
      exists dy, u. auto.
Qed.

(** C4. When [ac3], started with the default arcs, returns [True], every
    arc is consistent in the store it leaves: for slots [x], [y] with
    overlap [(i, j)], every word left in [domains[x]] agrees at the
    offsets with some word of [domains[y]]. The overlap relation is the
    loader's: between distinct slots of the puzzle, symmetric, and with
    every overlapping pair among the keys of the dict. *)
Theorem ac3_arc_consistent (fuel : nat) (D D' : store) (x y : Slot.t) (i j : nat)
        (dx : list string) (w : string) :
  overlaps_wf cw ->
  ac3 cw fuel None D = (Ret true, D') ->
  overlaps cw x y = Some (i, j) ->
  lookup x D' = Some dx -> In w dx ->
  exists dy u, lookup y D' = Some dy /\ In u dy /\ agree i j w u.
Proof.
  intros Hwf H Ho.
  assert (Hc : arc_consistent D' x y i j).
  { apply (ac3_loop_arc_consistent Hwf fuel (overlaps_keys cw) D D' H); [|exact Ho].
    intros a b i' j' Hab. left. eapply wf_keys; eassumption. }
  apply Hc.
Qed.

End AC3.

(** ** The assignment dict *)

Lemma dict_get_In a x w : dict_get a x = Some w -> In (x, w) a.
Proof.
  induction a as [|[k u] a IH]; simpl; [discriminate|].
  destruct (Slot.eq_dec x k) as [->|]; intro H.
  - inversion H. auto.
  - auto.
Qed.

Lemma dict_set_absent x w a :
  dict_get a x = None -> dict_set x w a = a ++ [(x, w)].
Proof.
  induction a as [|[k u] a IH]; simpl; [reflexivity|].
  destruct (Slot.eq_dec x k); [discriminate|]. intro H. rewrite IH; auto.
Qed.

Lemma dict_get_set x w a z :
  dict_get (dict_set x w a) z = if Slot.eq_dec z x then Some w else dict_get a z.
Proof.
  induction a as [|[k u] a IH]; simpl.
  - destruct (Slot.eq_dec z x); reflexivity.
  - destruct (Slot.eq_dec x k) as [->|Hxk]; simpl.
    + destruct (Slot.eq_dec z k); reflexivity.
    + destruct (Slot.eq_dec z k) as [->|Hzk].
      * destruct (Slot.eq_dec k x); [congruence|reflexivity].
      * exact IH.
Qed.

Lemma dict_mem_set x w a z :
  dict_mem z (dict_set x w a) = Slot.eqb z x || dict_mem z a.
Proof.
  unfold dict_mem, Slot.eqb. rewrite dict_get_set.
  destruct (Slot.eq_dec z x); reflexivity.
Qed.

(** Setting a fresh key and deleting it gives back the very same dict. *)
Lemma dict_del_set x w a :
  dict_get a x = None -> dict_del x (dict_set x w a) = Ret a.
Proof.
  induction a as [|[k u] a IH]; simpl.
  - intros _. destruct (Slot.eq_dec x x) as [_|n]; [reflexivity|].
    exfalso. apply n. reflexivity.
  - destruct (Slot.eq_dec x k) as [->|Hxk]; [discriminate|]. intro H.
    simpl. destruct (Slot.eq_dec x k); [congruence|]. rewrite IH; auto.
Qed.

Lemma dict_del_not_OutOfFuel x a : dict_del x a <> OutOfFuel.
Proof.
  induction a as [|[k u] a IH]; simpl; [discriminate|].
  destruct (Slot.eq_dec x k); [discriminate|].
  destruct (dict_del x a); simpl; congruence.
Qed.

(** ** [sorted] *)

Section SortedFacts.
Context {A : Type} (key : A -> nat).

Lemma insert_asc_perm x l : Permutation (insert_asc key x l) (x :: l).
Proof.
  induction l as [|y l IH]; simpl; [reflexivity|].
  destruct (key x <=? key y); [reflexivity|].
  rewrite IH. apply perm_swap.
Qed.

Lemma sorted_perm l : Permutation (sorted key l) l.
Proof.
  induction l as [|x l IH]; simpl; [reflexivity|].
  rewrite insert_asc_perm. constructor. assumption.
Qed.

Lemma insert_desc_perm x l : Permutation (insert_desc key x l) (x :: l).
Proof.
  induction l as [|y l IH]; simpl; [reflexivity|].
  destruct (key y <=? key x); [reflexivity|].
  rewrite IH. apply perm_swap.
Qed.

Lemma sorted_reverse_perm l : Permutation (sorted_reverse key l) l.
Proof.
  induction l as [|x l IH]; simpl; [reflexivity|].
  rewrite insert_desc_perm. constructor. assumption.
Qed.

(** The first element of a list sorted in reverse has the largest key. *)
Lemma sorted_reverse_head l : forall h t,
  sorted_reverse key l = h :: t -> forall x, In x l -> key x <= key h.
Proof.
  induction l as [|a l IH]; intros h t H x Hx; [destruct Hx|].
  simpl in H. destruct (sorted_reverse key l) as [|h0 t0] eqn:E.
  - simpl in H. inversion H; subst.
    destruct Hx as [->|Hx]; [lia|].
    apply (Permutation_in _ (Permutation_sym (sorted_reverse_perm l))) in Hx.
    rewrite E in Hx. destruct Hx.
  - simpl in H. destruct (key h0 <=? key a) eqn:Hle.
    + inversion H; subst. apply Nat.leb_le in Hle.
      destruct Hx as [->|Hx]; [lia|].
      specialize (IH h0 t0 eq_refl x Hx). lia.
    + inversion H; subst. apply Nat.leb_gt in Hle.
      destruct Hx as [->|Hx]; [lia|].
      apply (IH h t0 eq_refl x Hx).
Qed.

End SortedFacts.

(** ** [consistent] *)

Section Consistent.
Context (cw : Crossword).

Lemma consistent_inner_not_OutOfFuel var word items :
  consistent_inner cw var word items <> OutOfFuel.
Proof.
  induction items as [|[y u] items IH]; simpl; [discriminate|].
  destruct (Slot.eq_dec var y); [assumption|].
  destruct (String.eqb word u); [discriminate|].
  destruct (overlaps cw var y) as [[i j]|]; [|assumption].
  unfold bind, index.
  destruct (String.get i word); [|discriminate].
  destruct (String.get j u); [|discriminate].
  destruct (Ascii.eqb _ _); [assumption|discriminate].
Qed.

Lemma consistent_outer_not_OutOfFuel items a :
  consistent_outer cw items a <> OutOfFuel.
Proof.
  induction items as [|[var word] items IH]; simpl; [discriminate|].
  destruct (String.length word =? Slot.length var); [|discriminate].
  pose proof (consistent_inner_not_OutOfFuel var word a).
  destruct (consistent_inner cw var word a) as [[|]|e|]; simpl; congruence.
Qed.

Lemma consistent_inner_true var word items :
  consistent_inner cw var word items = Ret true ->
  forall y u, In (y, u) items -> var <> y ->
    word <> u /\
    forall i j, overlaps cw var y = Some (i, j) -> agree i j word u.
Proof.
  induction items as [|[y0 u0] items IH]; simpl; intros H y u Hin Hne; [destruct Hin|].
  destruct (Slot.eq_dec var y0) as [->|Hv].
  - destruct Hin as [E|Hin]; [inversion E; congruence|]. apply IH; assumption.
  - destruct (String.eqb_spec word u0) as [->|Hw]; [discriminate|].
    destruct (overlaps cw var y0) as [[i0 j0]|] eqn:Ho.
    + unfold bind, index in H.
      destruct (String.get i0 word) as [c1|] eqn:H1; [|discriminate].
      destruct (String.get j0 u0) as [c2|] eqn:H2; [|discriminate].
      destruct (Ascii.eqb_spec c1 c2) as [->|Hc]; [|discriminate].
      destruct Hin as [E|Hin]; [|apply IH; assumption].
      inversion E; subst y0 u0. split; [assumption|].
      intros i j Hij. rewrite Ho in Hij. inversion Hij; subst. exists c2. auto.
    + destruct Hin as [E|Hin]; [|apply IH; assumption].
      inversion E; subst y0 u0. split; [assumption|].
      intros i j Hij. rewrite Ho in Hij. discriminate.
Qed.

Lemma consistent_outer_true items a :
  consistent_outer cw items a = Ret true ->
  forall var word, In (var, word) items ->
    String.length word = Slot.length var /\
    consistent_inner cw var word a = Ret true.
Proof.
  induction items as [|[v0 w0] items IH]; simpl; intros H var word Hin; [destruct Hin|].
  destruct (String.length w0 =? Slot.length v0) eqn:Hl; [|discriminate].
  destruct (consistent_inner cw v0 w0 a) as [[|]|e|] eqn:Hi; simpl in H; try discriminate.
  destruct Hin as [E|Hin]; [|apply IH; assumption].
  inversion E; subst. apply Nat.eqb_eq in Hl. auto.
Qed.

(** A dict that [consistent] accepts is globally consistent. *)
Lemma consistent_sound a :
  consistent cw a = Ret true -> globally_consistent cw a.
Proof.
  intro H. unfold consistent in H.
  pose proof (consistent_outer_true a a H) as Hall.
  split; [|split].
  - intros v w Hv. apply dict_get_In in Hv. apply Hall. assumption.
  - intros x y wx wy Hxy Hx Hy.
    apply dict_get_In in Hx. apply dict_get_In in Hy.
    destruct (Hall x wx Hx) as [_ Hin].
    apply (consistent_inner_true x wx a Hin y wy Hy Hxy).
  - intros x y i j wx wy Hxy Ho Hx Hy.
    apply dict_get_In in Hx. apply dict_get_In in Hy.
    destruct (Hall x wx Hx) as [_ Hin].
    apply (consistent_inner_true x wx a Hin y wy Hy Hxy). assumption.
Qed.

Lemma consistent_inner_false sol var word items :
  globally_consistent cw sol -> dict_get sol var = Some word -> extends sol items ->
  consistent_inner cw var word items <> Ret false.
Proof.
  intros (Hlen & Hdist & Hov) Hvar.
  induction items as [|[y u] items IH]; simpl; intro Hext; [discriminate|].
  assert (Hy : dict_get sol y = Some u) by (apply Hext; simpl; auto).
  assert (Hrest : extends sol items) by (intros v w Hin; apply Hext; simpl; auto).
  destruct (Slot.eq_dec var y) as [->|Hv]; [auto|].
  destruct (String.eqb_spec word u) as [->|Hw].
  - exfalso. apply (Hdist var y u u Hv Hvar Hy). reflexivity.
  - destruct (overlaps cw var y) as [[i j]|] eqn:Ho; [|auto].
    destruct (Hov var y i j word u Hv Ho Hvar Hy) as [c [H1 H2]].
    unfold bind, index. rewrite H1, H2, Ascii.eqb_refl. auto.
Qed.

(** [consistent] rejects no part of a globally consistent dict. *)
Lemma consistent_complete sol a :
  globally_consistent cw sol -> extends sol a -> consistent cw a <> Ret false.
Proof.
  intros Hsol Hext. unfold consistent.
  assert (Hgen : forall items, extends sol items -> consistent_outer cw items a <> Ret false).
  { induction items as [|[var word] items IH]; simpl; intro Hits; [discriminate|].
    assert (Hvar : dict_get sol var = Some word) by (apply Hits; simpl; auto).
    destruct Hsol as (Hlen & Hrest).
    rewrite (Hlen var word Hvar), Nat.eqb_refl.
    pose proof (consistent_inner_false sol var word a (conj Hlen Hrest) Hvar Hext) as Hi.
    destruct (consistent_inner cw var word a) as [[|]|e|]; simpl; try congruence.
    apply IH. intros v w Hin. apply Hits. simpl. auto. }
  apply Hgen. assumption.
Qed.

End Consistent.

(** ** [order_domain_values] *)

Section Ordering.
Context (cw : Crossword).

Lemma count_mismatches_not_OutOfFuel w i j d : forall n,
  count_mismatches w i j d n <> OutOfFuel.
Proof.
  induction d as [|u d IH]; intro n; simpl; [discriminate|].
  unfold bind, index.
  destruct (String.get i w); [|discriminate].
  destruct (String.get j u); [|discriminate]. apply IH.
Qed.

Lemma eliminated_not_OutOfFuel var a D w others : forall n,
  eliminated cw var a D w others n <> OutOfFuel.
Proof.
  induction others as [|o others IH]; intro n; simpl; [discriminate|].
  destruct (negb (dict_mem o a) && negb (Slot.eqb o var)); [|apply IH].
  destruct (overlaps cw var o) as [[i j]|]; [|apply IH].
  unfold getitem. destruct (lookup o D) as [d|]; simpl; [|discriminate].
  pose proof (count_mismatches_not_OutOfFuel w i j d n).
  destruct (count_mismatches w i j d n); simpl; [apply IH|discriminate|congruence].
Qed.

Lemma domain_values_not_OutOfFuel var a D d :
  domain_values cw var a D d <> OutOfFuel.
Proof.
  induction d as [|w d IH]; simpl; [discriminate|].
  pose proof (eliminated_not_OutOfFuel var a D w (variables cw) 0).
  destruct (eliminated cw var a D w (variables cw) 0); simpl; try congruence.
  destruct (domain_values cw var a D d); simpl; congruence.
Qed.

Lemma order_domain_values_not_OutOfFuel var a D :
  order_domain_values cw var a D <> OutOfFuel.
Proof.
  unfold order_domain_values, getitem.
  destruct (lookup var D) as [d|]; simpl; [|discriminate].
  pose proof (domain_values_not_OutOfFuel var a D d).
  destruct (domain_values cw var a D d); simpl; congruence.
Qed.

Lemma domain_values_keys var a D : forall d dv,
  domain_values cw var a D d = Ret dv -> map fst dv = d.
Proof.
  induction d as [|w d IH]; simpl; intros dv H.
  - inversion H. reflexivity.
  - destruct (eliminated cw var a D w (variables cw) 0); simpl in H; try discriminate.
    destruct (domain_values cw var a D d) as [rest| |]; simpl in H; try discriminate.
    inversion H; subst. simpl. rewrite (IH rest eq_refl). reflexivity.
Qed.

(** The candidates are the words of the domain, each once, reordered. *)
Lemma order_domain_values_perm var a D ws :
  order_domain_values cw var a D = Ret ws ->
  exists d, lookup var D = Some d /\ Permutation ws d.
Proof.
  unfold order_domain_values, getitem.
  destruct (lookup var D) as [d|]; simpl; [|discriminate].
  destruct (domain_values cw var a D d) as [dv| |] eqn:Hdv; simpl; try discriminate.
  intro H. inversion H; subst. exists d. split; [reflexivity|].
  rewrite <- (domain_values_keys var a D d dv Hdv).
  apply Permutation_map. apply sorted_perm.
Qed.

Lemma order_domain_values_empty var a D :
  lookup var D = Some [] -> order_domain_values cw var a D = Ret [].
Proof. intro H. unfold order_domain_values, getitem. rewrite H. reflexivity. Qed.

End Ordering.

(** ** [select_unassigned_variable] *)

Section Select.
Context (cw : Crossword).

Lemma domain_size_lookup D v d :
  lookup v D = Some d -> domain_size D v = N.of_nat (List.length d).
Proof. intro H. unfold domain_size, dom. rewrite H. reflexivity. Qed.

Lemma select_scan_spec a D : forall vars s best s' best',
  select_scan vars a D s best = Ret (s', best') ->
  (s' <= s)%N /\
  (forall v, In v vars -> dict_mem v a = false -> (s' <= domain_size D v)%N) /\
  (s' = s \/ exists v, In v vars /\ dict_mem v a = false /\ domain_size D v = s') /\
  (forall v, In v best' <->
     (s' = s /\ In v best) \/
     (In v vars /\ dict_mem v a = false /\ domain_size D v = s')).
Proof.
  induction vars as [|var rest IH]; intros s best s' best' H; simpl in H.
  - inversion H; subst. split; [lia|]. split; [intros v []|].
    split; [left; reflexivity|].
    intro v. split; [auto|]. intros [[_ Hb]|[[] _]]. exact Hb.
  - destruct (dict_mem var a) eqn:Hm.
    + apply IH in H. destruct H as (H1 & H2 & H3 & H4).
      split; [exact H1|]. split; [|split].
      * intros v [<-|Hv] Hu; [congruence|auto].
      * destruct H3 as [->|[v (Hv & Hu & Hs)]]; [left; reflexivity|].
        right. exists v. simpl. auto.
      * intro v. rewrite H4. split; intros [Hl|(Hv & Hu & Hs)]; auto.
        -- right. simpl. auto.
        -- destruct Hv as [<-|Hv]; [congruence|]. right. auto.
    + unfold getitem in H. destruct (lookup var D) as [d|] eqn:Hd; simpl in H;
        [|discriminate].
      pose proof (domain_size_lookup D var d Hd) as Hsize.
      destruct (N.ltb_spec (N.of_nat (List.length d)) s) as [Hlt|Hge].
      * apply IH in H. destruct H as (H1 & H2 & H3 & H4).
        split; [lia|]. split; [|split].
        -- intros v [<-|Hv] Hu; [lia|auto].
        -- right. destruct H3 as [->|[v (Hv & Hu & Hs)]].
           ++ exists var. simpl. auto.
           ++ exists v. simpl. auto.
        -- intro v. rewrite H4. split.
           ++ intros [[E [<-|[]]]|(Hv & Hu & Hs)]; right; simpl; auto.
              split; [auto|]. split; [auto|]. lia.
           ++ intros [[E _]|(Hv & Hu & Hs)]; [lia|].
              destruct Hv as [<-|Hv]; [|right; auto].
              left. split; [lia|]. simpl. auto.
      * destruct (N.eqb_spec (N.of_nat (List.length d)) s) as [Heq|Hne].
        -- apply IH in H. destruct H as (H1 & H2 & H3 & H4).
           split; [exact H1|]. split; [|split].
           ++ intros v [<-|Hv] Hu; [lia|auto].
           ++ destruct H3 as [->|[v (Hv & Hu & Hs)]]; [left; reflexivity|].
              right. exists v. simpl. auto.
           ++ intro v. rewrite H4, in_app_iff. simpl. split.
              ** intros [[E [Hb|[<-|[]]]]|(Hv & Hu & Hs)];
                   [left; auto|right; split; [auto|split; [auto|lia]]|right; auto].
              ** intros [[E Hb]|([<-|Hv] & Hu & Hs)];
                   [left; auto|left; split; [lia|auto]|right; auto].
        -- apply IH in H. destruct H as (H1 & H2 & H3 & H4).
           split; [exact H1|]. split; [|split].
           ++ intros v [<-|Hv] Hu; [lia|auto].
           ++ destruct H3 as [->|[v (Hv & Hu & Hs)]]; [left; reflexivity|].
              right. exists v. simpl. auto.
           ++ intro v. rewrite H4. simpl. split.
              ** intros [Hl|(Hv & Hu & Hs)]; [left; auto|right; auto].
              ** intros [Hl|([<-|Hv] & Hu & Hs)]; [left; auto|lia|right; auto].
Qed.

Lemma select_scan_total a D : forall vars s best,
  (forall v, In v vars -> dict_mem v a = false -> lookup v D <> None) ->
  exists r, select_scan vars a D s best = Ret r.
Proof.
  induction vars as [|var rest IH]; intros s best Hk; simpl; [eauto|].
  assert (Hrest : forall v, In v rest -> dict_mem v a = false -> lookup v D <> None)
    by (intros v Hv; apply Hk; simpl; auto).
  destruct (dict_mem var a) eqn:Hm; [apply IH; assumption|].
  unfold getitem. destruct (lookup var D) as [d|] eqn:Hd; simpl.
  - destruct (N.of_nat (List.length d) <? s)%N; [apply IH; assumption|].
    destruct (N.of_nat (List.length d) =? s)%N; apply IH; assumption.
  - exfalso. apply (Hk var); simpl; auto.
Qed.

Lemma select_scan_not_OutOfFuel a D : forall vars s best,
  select_scan vars a D s best <> OutOfFuel.
Proof.
  induction vars as [|var rest IH]; intros s best; simpl; [discriminate|].
  destruct (dict_mem var a); [apply IH|].
  unfold getitem. destruct (lookup var D) as [d|]; simpl; [|discriminate].
  destruct (N.of_nat (List.length d) <? s)%N; [apply IH|].
  destruct (N.of_nat (List.length d) =? s)%N; apply IH.
Qed.

Lemma select_unassigned_variable_not_OutOfFuel a D :
  select_unassigned_variable cw a D <> OutOfFuel.
Proof.
  unfold select_unassigned_variable.
  pose proof (select_scan_not_OutOfFuel a D (variables cw) sentinel []).
  destruct (select_scan (variables cw) a D sentinel []) as [[s best]| |];
    cbn [bind snd]; try congruence.
  destruct best as [|v [|v' best]]; try discriminate.
  destruct (sorted_reverse (degree cw) (v :: v' :: best)); discriminate.
Qed.

(** What is returned is one of the candidates that the scan kept, and
    none of them has a larger degree. *)
Lemma select_from_best a D s best var :
  select_scan (variables cw) a D sentinel [] = Ret (s, best) ->
  select_unassigned_variable cw a D = Ret (Some var) ->
  In var best /\ forall v, In v best -> degree cw v <= degree cw var.
Proof.
  intros Hscan. unfold select_unassigned_variable. rewrite Hscan. cbn [bind snd].
  destruct best as [|v [|v' best]]; try discriminate.
  - intro H. inversion H; subst. split; [simpl; auto|].
    intros v [<-|[]]. lia.
  - destruct (sorted_reverse (degree cw) (v :: v' :: best)) as [|h t] eqn:E;
      [discriminate|].
    intro H. inversion H; subst h. split.
    + apply (Permutation_in _ (sorted_reverse_perm (degree cw) (v :: v' :: best))).
      rewrite E. simpl. auto.
    + intros u Hu. apply (sorted_reverse_head (degree cw) _ _ _ E u Hu).
Qed.

(** The slot that [select_unassigned_variable] returns is a slot of the
    puzzle without an entry in the assignment. *)
Lemma select_unassigned_variable_unassigned a D var :
  select_unassigned_variable cw a D = Ret (Some var) ->
  In var (variables cw) /\ dict_mem var a = false.
Proof.
  intro H.
  destruct (select_scan (variables cw) a D sentinel []) as [[s best]| |] eqn:Hscan;
    try (unfold select_unassigned_variable in H; rewrite Hscan in H; discriminate).
  destruct (select_from_best a D s best var Hscan H) as [Hin _].
  destruct (select_scan_spec a D _ _ _ _ _ Hscan) as (_ & _ & _ & H4).
  apply H4 in Hin. destruct Hin as [[_ []]|(Hv & Hu & _)]. auto.
Qed.

(** The heuristic, for domains no larger than the sentinel: a slot
    without an entry, of the fewest remaining values, and of the largest
    degree among those. *)
Lemma select_unassigned_variable_mrv a D :
  (forall v, In v (variables cw) -> dict_mem v a = false -> lookup v D <> None) ->
  (exists v, In v (variables cw) /\ dict_mem v a = false /\
             (domain_size D v <= sentinel)%N) ->
  exists var,
    select_unassigned_variable cw a D = Ret (Some var) /\
    In var (variables cw) /\ dict_mem var a = false /\
    (forall v, In v (variables cw) -> dict_mem v a = false ->
       List.length (dom var D) <= List.length (dom v D)) /\
    (forall v, In v (variables cw) -> dict_mem v a = false ->
       List.length (dom v D) = List.length (dom var D) ->
       degree cw v <= degree cw var).
Proof.
  intros Hk [v0 (Hv0 & Hu0 & Hs0)].
  destruct (select_scan_total a D (variables cw) sentinel [] Hk) as [[s best] Hscan].
  destruct (select_scan_spec a D _ _ _ _ _ Hscan) as (H1 & H2 & H3 & H4).
  assert (Hne : exists v, In v best).
  { destruct H3 as [->|[v Hv]].
    - exists v0. apply H4. right. split; [auto|]. split; [auto|].
      specialize (H2 v0 Hv0 Hu0). lia.
    - exists v. apply H4. right. exact Hv. }
  assert (Hsel : exists var, select_unassigned_variable cw a D = Ret (Some var)).
  { unfold select_unassigned_variable. rewrite Hscan. cbn [bind snd].
    destruct best as [|v [|v' best]]; [destruct Hne as [? []]|eauto|].
    destruct (sorted_reverse (degree cw) (v :: v' :: best)) as [|h t] eqn:E; [|eauto].
    exfalso. pose proof (sorted_reverse_perm (degree cw) (v :: v' :: best)) as P.
    rewrite E in P. apply Permutation_nil in P. discriminate. }
  destruct Hsel as [var Hsel]. exists var. split; [exact Hsel|].
  destruct (select_from_best a D s best var Hscan Hsel) as [Hin Hdeg].
  apply H4 in Hin. destruct Hin as [[_ []]|(Hv & Hu & Hs)].
  split; [exact Hv|]. split; [exact Hu|]. split.
  - intros v Hin Hun. specialize (H2 v Hin Hun).
    unfold domain_size in *. lia.
  - intros v Hin Hun Hlen. apply Hdeg. apply H4. right.
    split; [auto|]. split; [auto|]. unfold domain_size in *. rewrite Hlen. exact Hs.
Qed.

(** Beyond the sentinel no candidate is ever kept. *)
Lemma select_scan_beyond a D : forall vars s best,
  (forall v, In v vars -> dict_mem v a = false ->
     exists d, lookup v D = Some d /\ (s < N.of_nat (List.length d))%N) ->
  select_scan vars a D s best = Ret (s, best).
Proof.
  induction vars as [|var rest IH]; intros s best H; simpl; [reflexivity|].
  assert (Hrest : forall v, In v rest -> dict_mem v a = false ->
            exists d, lookup v D = Some d /\ (s < N.of_nat (List.length d))%N)
    by (intros v Hv; apply H; simpl; auto).
  destruct (dict_mem var a) eqn:Hm; [apply IH; assumption|].
  destruct (H var (or_introl eq_refl) Hm) as (d & Hd & Hlt).
  unfold getitem. rewrite Hd. simpl.
  destruct (N.ltb_spec (N.of_nat (List.length d)) s); [lia|].
  destruct (N.eqb_spec (N.of_nat (List.length d)) s); [lia|].
  apply IH. assumption.
Qed.

End Select.

(** ** [backtrack] *)

Section Backtrack.
Context (cw : Crossword).

Lemma dict_mem_false a x : dict_mem x a = false <-> dict_get a x = None.
Proof. unfold dict_mem. destruct (dict_get a x); split; congruence. Qed.

(** *** The domain store is only read *)

Lemma undo_domains var s : domains (snd (undo var s)) = domains s.
Proof. unfold undo. destruct (dict_del var (assignment s)); reflexivity. Qed.

Lemma try_word_domains recur var w st :
  (forall s, domains (snd (recur s)) = domains s) ->
  domains (snd (try_word cw recur var w st)) = domains st.
Proof.
  intro Hrec. unfold try_word.
  set (st1 := with_assignment st (dict_set var w (assignment st))).
  destruct (consistent cw (assignment st1)) as [[|]|e|]; try reflexivity.
  - specialize (Hrec st1). destruct (recur st1) as [r2 s2]. simpl in Hrec.
    destruct r2 as [[res|]|e|]; simpl; try assumption.
    rewrite undo_domains. assumption.
  - rewrite undo_domains. reflexivity.
Qed.

Lemma backtrack_loop_domains recur var cands :
  (forall s, domains (snd (recur s)) = domains s) ->
  forall st, domains (snd (backtrack_loop cw recur var cands st)) = domains st.
Proof.
  intro Hrec. induction cands as [|w cands IH]; intro st; simpl; [reflexivity|].
  pose proof (try_word_domains recur var w st Hrec) as H.
  destruct (try_word cw recur var w st) as [r s1]. simpl in H.
  destruct r as [[res|]|e|]; simpl; try assumption.
  rewrite IH. assumption.
Qed.

(** C8. The search never changes the domain store: whatever
    [backtrack] does on a state (a returned assignment, the failure
    result, an exception), the store after the call is the store before
    it. The helpers [select_unassigned_variable], [order_domain_values]
    and [consistent] only read the store and return none. *)
Theorem backtrack_keeps_domains (fuel : nat) (st : state) :
  domains (snd (backtrack cw fuel st)) = domains st.
Proof.
  revert st. induction fuel as [|fuel IH]; intro st; simpl; [reflexivity|].
  destruct (assignment_complete cw (assignment st)); [reflexivity|].
  destruct (select_unassigned_variable cw (assignment st) (domains st))
    as [[var|]|e|]; try reflexivity.
  destruct (order_domain_values cw var (assignment st) (domains st))
    as [cands|e|]; try reflexivity.
  rewrite backtrack_loop_domains; [reflexivity|exact IH].
Qed.

(** *** Undo *)

Lemma undo_fresh var w a s :
  dict_get a var = None -> assignment s = dict_set var w a ->
  undo var s = (Ret None, with_assignment s a).
Proof.
  intros Ha Hs. unfold undo. rewrite Hs, dict_del_set by assumption. reflexivity.
Qed.

Lemma try_word_undo recur var w st st' :
  (forall s s', recur s = (Ret None, s') -> assignment s' = assignment s) ->
  dict_get (assignment st) var = None ->
  try_word cw recur var w st = (Ret None, st') ->
  assignment st' = assignment st.
Proof.
  intros Hrec Hvar. unfold try_word.
  set (st1 := with_assignment st (dict_set var w (assignment st))).
  destruct (consistent cw (assignment st1)) as [[|]|e|]; try discriminate.
  - destruct (recur st1) as [r2 s2] eqn:E.
    destruct r2 as [[res|]|e|]; try discriminate.
    rewrite (undo_fresh var w (assignment st) s2 Hvar (Hrec st1 s2 E)).
    intro H. inversion H. reflexivity.
  - rewrite (undo_fresh var w (assignment st) st1 Hvar eq_refl).
    intro H. inversion H. reflexivity.
Qed.

Lemma backtrack_loop_undo recur var cands :
  (forall s s', recur s = (Ret None, s') -> assignment s' = assignment s) ->
  forall st st', dict_get (assignment st) var = None ->
  backtrack_loop cw recur var cands st = (Ret None, st') ->
  assignment st' = assignment st.
Proof.
  intro Hrec. induction cands as [|w cands IH]; intros st st' Hvar H; simpl in H.
  - inversion H. reflexivity.
  - destruct (try_word cw recur var w st) as [r s1] eqn:E.
    destruct r as [[res|]|e|]; try discriminate.
    pose proof (try_word_undo recur var w st s1 Hrec Hvar E) as H1.
    rewrite <- H1. apply IH; [rewrite H1; assumption|assumption].
Qed.

(** C7. Undo discipline: when [backtrack] returns the failure result,
    the assignment dict is, entry for entry and in the same order, the
    dict it was called with: every entry set inside the call has been
    deleted again. *)
Theorem backtrack_failure_restores (fuel : nat) (st st' : state) :
  backtrack cw fuel st = (Ret None, st') ->
  assignment st' = assignment st.
Proof.
  revert st st'. induction fuel as [|fuel IH]; intros st st' H; simpl in H;
    [discriminate|].
  destruct (assignment_complete cw (assignment st)); [discriminate|].
  destruct (select_unassigned_variable cw (assignment st) (domains st))
    as [[var|]|e|] eqn:Hsel; try discriminate.
  destruct (order_domain_values cw var (assignment st) (domains st))
    as [cands|e|]; try discriminate.
  apply select_unassigned_variable_unassigned in Hsel. destruct Hsel as [_ Hun].
  apply dict_mem_false in Hun.
  apply (backtrack_loop_undo (backtrack cw fuel) var cands IH (enter_backtrack st) st');
    assumption.
Qed.

(** Both frame properties at once, for the proofs about the search. *)
Lemma backtrack_frame (fuel : nat) :
  (forall st, domains (snd (backtrack cw fuel st)) = domains st) /\
  (forall st st', backtrack cw fuel st = (Ret None, st') ->
                  assignment st' = assignment st).
Proof.
  induction fuel as [|fuel [IHd IHa]]; split; intros st; simpl;
    try reflexivity; try discriminate.
  - destruct (assignment_complete cw (assignment st)); [reflexivity|].
    destruct (select_unassigned_variable cw (assignment st) (domains st))
      as [[var|]|e|]; try reflexivity.
    destruct (order_domain_values cw var (assignment st) (domains st))
      as [cands|e|]; try reflexivity.
    rewrite backtrack_loop_domains; [reflexivity|exact IHd].
  - intros st' H.
    destruct (assignment_complete cw (assignment st)); [discriminate|].
    destruct (select_unassigned_variable cw (assignment st) (domains st))
      as [[var|]|e|] eqn:Hsel; try discriminate.
    destruct (order_domain_values cw var (assignment st) (domains st))
      as [cands|e|]; try discriminate.
    apply select_unassigned_variable_unassigned in Hsel. destruct Hsel as [_ Hun].
    apply dict_mem_false in Hun.
    apply (backtrack_loop_undo (backtrack cw fuel) var cands IHa
             (enter_backtrack st) st'); assumption.
Qed.

Lemma backtrack_domains (fuel : nat) (st : state) :
  domains (snd (backtrack cw fuel st)) = domains st.
Proof. apply backtrack_frame. Qed.

Lemma backtrack_undo (fuel : nat) (st st' : state) :
  backtrack cw fuel st = (Ret None, st') ->
  assignment st' = assignment st.
Proof. apply backtrack_frame. Qed.

(** *** What is returned *)

Lemma try_word_result recur var w st res st' :
  (forall s r s', recur s = (Ret (Some r), s') ->
     r = assignment s' /\ assignment_complete cw r = true /\
     (r = assignment s \/ consistent cw r = Ret true)) ->
  try_word cw recur var w st = (Ret (Some res), st') ->
  res = assignment st' /\ assignment_complete cw res = true /\
  consistent cw res = Ret true.
Proof.
  intros Hrec. unfold try_word, undo.
  set (st1 := with_assignment st (dict_set var w (assignment st))).
  destruct (consistent cw (assignment st1)) as [[|]|e|] eqn:Hc; try discriminate.
  - destruct (recur st1) as [r2 s2] eqn:E.
    destruct r2 as [[r|]|e|]; try discriminate.
    + intro H. inversion H; subst.
      destruct (Hrec st1 res st' E) as (H1 & H2 & [H3|H3]); repeat split; auto.
      rewrite H3. exact Hc.
    + destruct (dict_del var (assignment s2)); discriminate.
  - destruct (dict_del var (assignment st1)); discriminate.
Qed.

Lemma backtrack_loop_result recur var cands :
  (forall s r s', recur s = (Ret (Some r), s') ->
     r = assignment s' /\ assignment_complete cw r = true /\
     (r = assignment s \/ consistent cw r = Ret true)) ->
  forall st res st',
  backtrack_loop cw recur var cands st = (Ret (Some res), st') ->
  res = assignment st' /\ assignment_complete cw res = true /\
  consistent cw res = Ret true.
Proof.
  intro Hrec. induction cands as [|w cands IH]; intros st res st' H; simpl in H;
    [discriminate|].
  destruct (try_word cw recur var w st) as [r s1] eqn:E.
  destruct r as [[r|]|e|]; try discriminate.
  - inversion H; subst. eapply try_word_result; eassumption.
  - eapply IH; eassumption.
Qed.

(** A returned assignment is the shared dict itself, has an entry for
    every slot, and either was complete on entry or passed [consistent]. *)
Lemma backtrack_result (fuel : nat) : forall st res st',
  backtrack cw fuel st = (Ret (Some res), st') ->
  res = assignment st' /\ assignment_complete cw res = true /\
  (res = assignment st \/ consistent cw res = Ret true).
Proof.
  induction fuel as [|fuel IH]; intros st res st' H; simpl in H; [discriminate|].
  destruct (assignment_complete cw (assignment st)) eqn:Hc.
  - inversion H; subst. simpl. auto.
  - destruct (select_unassigned_variable cw (assignment st) (domains st))
      as [[var|]|e|]; try discriminate.
    destruct (order_domain_values cw var (assignment st) (domains st))
      as [cands|e|]; try discriminate.
    destruct (backtrack_loop_result (backtrack cw fuel) var cands IH _ _ _ H)
      as (H1 & H2 & H3).
    auto.
Qed.

Lemma assignment_complete_sound a :
  assignment_complete cw a = true -> complete cw a.
Proof.
  unfold assignment_complete, complete. rewrite forallb_forall.
  intros H v Hv. specialize (H v Hv). unfold dict_mem in H.
  destruct (dict_get a v) as [w|]; [eauto|discriminate].
Qed.

End Backtrack.

(** ** The search is exhaustive *)

Section Exhaustive.
Context (cw : Crossword).

Lemma extends_set sol a var w :
  extends sol a -> dict_get a var = None -> dict_get sol var = Some w ->
  extends sol (dict_set var w a).
Proof.
  intros Hext Hvar Hsol v u Hin. rewrite dict_set_absent in Hin by assumption.
  apply in_app_or in Hin. destruct Hin as [Hin|[E|[]]]; [auto|].
  inversion E; subst. assumption.
Qed.

Lemma try_word_exhaustive recur var w st st' :
  exhaustive cw recur ->
  dict_get (assignment st) var = None ->
  try_word cw recur var w st = (Ret None, st') ->
  forall sol, solution_in cw (domains st) sol -> extends sol (assignment st) ->
    dict_get sol var <> Some w.
Proof.
  intros Hrec Hvar H sol Hsol Hext Hw. unfold try_word in H.
  set (st1 := with_assignment st (dict_set var w (assignment st))) in H.
  assert (Hext1 : extends sol (assignment st1)) by (apply extends_set; assumption).
  destruct (consistent cw (assignment st1)) as [[|]|e|] eqn:Hc; try discriminate.
  - destruct (recur st1) as [r2 s2] eqn:E.
    destruct r2 as [[res|]|e|]; try discriminate.
    apply (Hrec st1 s2 E sol); assumption.
  - destruct Hsol as (_ & Hcons & _).
    apply (consistent_complete cw sol (assignment st1) Hcons Hext1). exact Hc.
Qed.

Lemma backtrack_loop_exhaustive recur var cands :
  exhaustive cw recur ->
  (forall s, domains (snd (recur s)) = domains s) ->
  (forall s s', recur s = (Ret None, s') -> assignment s' = assignment s) ->
  forall st st', dict_get (assignment st) var = None ->
  backtrack_loop cw recur var cands st = (Ret None, st') ->
  forall sol, solution_in cw (domains st) sol -> extends sol (assignment st) ->
  forall w, In w cands -> dict_get sol var <> Some w.
Proof.
  intros Hrec Hdom Hundo.
  induction cands as [|w0 cands IH]; intros st st' Hvar H sol Hsol Hext w Hin;
    [destruct Hin|].
  simpl in H. destruct (try_word cw recur var w0 st) as [r s1] eqn:E.
  destruct r as [[res|]|e|]; try discriminate.
  destruct Hin as [<-|Hin].
  - eapply try_word_exhaustive; eassumption.
  - pose proof (try_word_undo cw recur var w0 st s1 Hundo Hvar E) as Ha.
    pose proof (try_word_domains cw recur var w0 st Hdom) as Hd.
    rewrite E in Hd. simpl in Hd.
    apply (IH s1 st'); try assumption; rewrite ?Ha, ?Hd; assumption.
Qed.

(** When [backtrack] returns the failure result, no solution made of
    words of the current domains extends the assignment it was given. *)
Lemma backtrack_exhaustive (fuel : nat) : exhaustive cw (backtrack cw fuel).
Proof.
  induction fuel as [|fuel IH]; intros st st' H sol Hsol Hext; simpl in H;
    [discriminate|].
  destruct (assignment_complete cw (assignment st)); [discriminate|].
  destruct (select_unassigned_variable cw (assignment st) (domains st))
    as [[var|]|e|] eqn:Hsel; try discriminate.
  destruct (order_domain_values cw var (assignment st) (domains st))
    as [cands|e|] eqn:Hord; try discriminate.
  apply select_unassigned_variable_unassigned in Hsel. destruct Hsel as [Hin Hun].
  apply dict_mem_false in Hun.
  apply order_domain_values_perm in Hord. destruct Hord as (d & Hd & Hperm).
  destruct Hsol as (Hcomp & Hcons & Hwithin).
  destruct (Hcomp var Hin) as [w Hw].
  assert (Hwd : In w cands).
  { apply (Permutation_in w (Permutation_sym Hperm)).
    specialize (Hwithin var w Hin Hw). unfold dom in Hwithin.
    rewrite Hd in Hwithin. assumption. }
  apply (backtrack_loop_exhaustive (backtrack cw fuel) var cands IH
           (backtrack_domains cw fuel)
           (backtrack_undo cw fuel)
           (enter_backtrack st) st' Hun H sol (conj Hcomp (conj Hcons Hwithin))
           Hext w Hwd Hw).
Qed.

(** *** Enough fuel *)

Lemma filter_length_mono {A} (f g : A -> bool) l :
  (forall y, f y = true -> g y = true) ->
  List.length (filter f l) <= List.length (filter g l).
Proof.
  intro H. induction l as [|a l IH]; simpl; [lia|].
  destruct (f a) eqn:Hf.
  - rewrite (H a Hf). simpl. lia.
  - destruct (g a); simpl; lia.
Qed.

Lemma filter_length_strict {A} (f g : A -> bool) l x :
  (forall y, f y = true -> g y = true) ->
  In x l -> g x = true -> f x = false ->
  List.length (filter f l) < List.length (filter g l).
Proof.
  intros H Hin Hg Hf. induction l as [|a l IH]; [destruct Hin|]. simpl.
  pose proof (filter_length_mono f g l H) as Hle.
  destruct Hin as [->|Hin].
  - rewrite Hg, Hf. simpl. lia.
  - specialize (IH Hin). destruct (f a) eqn:Hfa.
    + rewrite (H a Hfa). simpl. lia.
    + destruct (g a); simpl; lia.
Qed.

Lemma unassigned_set a var w :
  In var (variables cw) -> dict_mem var a = false ->
  unassigned cw (dict_set var w a) < unassigned cw a.
Proof.
  intros Hin Hun. unfold unassigned.
  apply filter_length_strict with (x := var); try assumption.
  - intros y. rewrite dict_mem_set, negb_orb. intro H.
    apply andb_true_iff in H. tauto.
  - rewrite Hun. reflexivity.
  - rewrite dict_mem_set. unfold Slot.eqb.
    destruct (Slot.eq_dec var var); [reflexivity|congruence].
Qed.

Lemma undo_not_OutOfFuel var s : fst (undo var s) <> OutOfFuel.
Proof.
  unfold undo. pose proof (dict_del_not_OutOfFuel var (assignment s)).
  destruct (dict_del var (assignment s)); simpl; congruence.
Qed.

Lemma try_word_fuel recur n var w st :
  (forall s, unassigned cw (assignment s) < n -> fst (recur s) <> OutOfFuel) ->
  In var (variables cw) -> dict_mem var (assignment st) = false ->
  unassigned cw (assignment st) <= n ->
  fst (try_word cw recur var w st) <> OutOfFuel.
Proof.
  intros Hrec Hin Hun Hn. unfold try_word.
  set (st1 := with_assignment st (dict_set var w (assignment st))).
  pose proof (consistent_outer_not_OutOfFuel cw (assignment st1) (assignment st1)) as Hc.
  fold (consistent cw (assignment st1)) in Hc.
  destruct (consistent cw (assignment st1)) as [[|]|e|]; simpl; try congruence.
  - assert (H1 : fst (recur st1) <> OutOfFuel).
    { apply Hrec. pose proof (unassigned_set (assignment st) var w Hin Hun).
      simpl. lia. }
    destruct (recur st1) as [r2 s2]. simpl in H1.
    destruct r2 as [[res|]|e|]; simpl; try congruence.
    apply undo_not_OutOfFuel.
  - apply undo_not_OutOfFuel.
Qed.

Lemma backtrack_loop_fuel recur n var cands :
  (forall s, unassigned cw (assignment s) < n -> fst (recur s) <> OutOfFuel) ->
  (forall s s', recur s = (Ret None, s') -> assignment s' = assignment s) ->
  In var (variables cw) ->
  forall st, dict_mem var (assignment st) = false ->
  unassigned cw (assignment st) <= n ->
  fst (backtrack_loop cw recur var cands st) <> OutOfFuel.
Proof.
  intros Hrec Hundo Hin.
  induction cands as [|w cands IH]; intros st Hun Hn; simpl; [discriminate|].
  pose proof (try_word_fuel recur n var w st Hrec Hin Hun Hn) as H1.
  destruct (try_word cw recur var w st) as [r s1] eqn:E. simpl in H1.
  destruct r as [[res|]|e|]; simpl; try congruence.
  apply dict_mem_false in Hun.
  pose proof (try_word_undo cw recur var w st s1 Hundo Hun E) as Ha.
  apply IH; rewrite Ha; [apply dict_mem_false|]; assumption.
Qed.

(** One unit of fuel per slot still to be filled, and one more, is
    enough for [backtrack]. *)
Lemma backtrack_fuel_enough : forall fuel st,
  unassigned cw (assignment st) < fuel -> fst (backtrack cw fuel st) <> OutOfFuel.
Proof.
  induction fuel as [|fuel IH]; intros st Hn; [lia|]. simpl.
  destruct (assignment_complete cw (assignment st)); [discriminate|].
  pose proof (select_unassigned_variable_not_OutOfFuel cw (assignment st) (domains st)) as Hs.
  destruct (select_unassigned_variable cw (assignment st) (domains st))
    as [[var|]|e|] eqn:Hsel; simpl; try congruence; try discriminate.
  pose proof (order_domain_values_not_OutOfFuel cw var (assignment st) (domains st)) as Ho.
  destruct (order_domain_values cw var (assignment st) (domains st))
    as [cands|e|]; simpl; try congruence.
  apply select_unassigned_variable_unassigned in Hsel. destruct Hsel as [Hin Hun].
  apply (backtrack_loop_fuel (backtrack cw fuel) fuel var cands IH
           (backtrack_undo cw fuel) Hin (enter_backtrack st) Hun).
  simpl. lia.
Qed.

End Exhaustive.

(** ** [solve] *)

Section Solve.
Context (cw : Crossword).

Lemma lookup_init v :
  In v (variables cw) -> lookup v (init cw) = Some (words cw).
Proof.
  unfold init. induction (variables cw) as [|k vs IH]; simpl; [tauto|].
  intros [->|Hin].
  - destruct (Slot.eq_dec v v); congruence.
  - destruct (Slot.eq_dec v k); auto.
Qed.

(** Node consistency removes no word of a solution. *)
Lemma within_node_consistent sol :
  from_vocabulary cw sol -> lengths_match sol ->
  within cw sol (enforce_node_consistency (init cw)).
Proof.
  intros Hvoc Hlen v w Hv Hw.
  apply (node_consistent_In (init cw) v (words cw) w (lookup_init v Hv)).
  split; [eapply Hvoc; eassumption|apply Hlen; assumption].
Qed.

(** [revise] removes no word of a solution. *)
Lemma revise_keeps_solution sol x y D b D' :
  overlaps_between_slots cw ->
  solution_in cw D sol ->
  revise cw x y D = (Ret b, D') ->
  solution_in cw D' sol.
Proof.
  intros Hwf (Hcomp & Hcons & Hin) H.
  split; [assumption|]. split; [assumption|].
  destruct (overlaps cw x y) as [[i j]|] eqn:Ho.
  - destruct (Hwf x y i j Ho) as (Hxy & Hx & Hy).
    destruct (revise_Ret cw x y i j D b D' Hxy Ho H) as (dx & Hdx & -> & _).
    intros v w Hv Hw. pose proof (Hin v w Hv Hw) as Hvw. unfold dom in Hvw |- *.
    rewrite lookup_update_with.
    destruct (Slot.eq_dec v x) as [->|Hvx]; [|assumption].
    rewrite Hdx in Hvw |- *. simpl. apply filter_In. split; [assumption|].
    apply supported_spec.
    destruct (Hcomp y Hy) as [u Hu]. exists u. split.
    + apply (Hin y u Hy Hu).
    + destruct Hcons as (_ & _ & Hov). apply (Hov x y i j w u Hxy Ho Hw Hu).
  - rewrite (revise_no_overlap cw x y D Ho) in H. inversion H; subst. assumption.
Qed.

Lemma ac3_loop_keeps_solution sol (Hwf : overlaps_between_slots cw) :
  forall fuel queue D b D',
  solution_in cw D sol ->
  ac3_loop cw fuel queue D = (Ret b, D') ->
  solution_in cw D' sol.
Proof.
  induction fuel as [|fuel IH]; intros queue D b D' Hsol H;
    destruct queue as [|[x y] queue]; simpl in H; try discriminate;
    try (inversion H; subst; assumption).
  destruct (revise cw x y D) as [r1 D1] eqn:Hr.
  destruct r1 as [[|]|e|]; try discriminate;
    pose proof (revise_keeps_solution sol x y D _ D1 Hwf Hsol Hr) as Hsol1.
  - destruct (getitem x D1) as [dx|e|]; try discriminate.
    destruct (List.length dx =? 0).
    + inversion H; subst. assumption.
    + eapply IH; eassumption.
  - eapply IH; eassumption.
Qed.

(** [solve] gives both loops the fuel they need. *)
Lemma solve_terminates (D : store) : fst (solve cw D) <> OutOfFuel.
Proof.
  unfold solve, ac3.
  set (D1 := enforce_node_consistency D).
  set (q := initial_queue cw None).
  pose proof (ac3_loop_fuel_enough cw (ac3_fuel cw q D1) q D1) as Hac.
  destruct (ac3_loop cw (ac3_fuel cw q D1) q D1) as [r D2]. simpl in Hac.
  assert (Hr : r <> OutOfFuel) by (apply Hac; unfold ac3_fuel; lia).
  destruct r as [b|e|]; [cbv iota beta|simpl; discriminate|congruence].
  apply backtrack_fuel_enough. unfold unassigned. cbn [assignment].
  pose proof (filter_length_le (fun v => negb (dict_mem v [])) (variables cw)). lia.
Qed.

(** C2. An assignment returned by [solve] has a word for every slot of
    the puzzle and is globally consistent: the length of each word is the
    length of its slot, distinct slots have distinct words, and the words
    of two overlapping slots agree at the offsets of the overlap. *)
Theorem solve_sound (D : store) (a : dict) (st' : state) :
  solve cw D = (Ret (Some a), st') ->
  complete cw a /\
  lengths_match a /\ words_distinct a /\ overlaps_agree cw a.
Proof.
  unfold solve.
  destruct (ac3 cw _ None (enforce_node_consistency D)) as [r D2].
  destruct r as [b|e|]; try discriminate.
  intro H. apply backtrack_result in H. destruct H as (_ & Hc & Hcons).
  split; [apply assignment_complete_sound; assumption|].
  apply consistent_sound. destruct Hcons as [->|Hcons]; [reflexivity|assumption].
Qed.

(** C3. When [solve], on the store that [__init__] builds, returns the
    failure result, no assignment of vocabulary words to the slots is
    complete and globally consistent. *)
Theorem solve_complete (st' : state) :
  overlaps_between_slots cw ->
  solve cw (init cw) = (Ret None, st') ->
  ~ exists sol, complete cw sol /\ globally_consistent cw sol /\ from_vocabulary cw sol.
Proof.
  intros Hwf H [sol (Hcomp & Hcons & Hvoc)].
  unfold solve, ac3 in H.
  set (D1 := enforce_node_consistency (init cw)) in H.
  assert (Hsol1 : solution_in cw D1 sol).
  { split; [assumption|]. split; [assumption|].
    apply within_node_consistent; [assumption|apply Hcons]. }
  destruct (ac3_loop cw _ (initial_queue cw None) D1) as [r D2] eqn:Hac.
  destruct r as [b|e|]; try discriminate.
  pose proof (ac3_loop_keeps_solution sol Hwf _ _ _ _ _ Hsol1 Hac) as Hsol2.
  apply (backtrack_exhaustive cw _ _ _ H sol Hsol2).
  intros v w [].
Qed.

(** C1, amended. When [ac3], started with the default arcs after node
    consistency on the initial domains, returns [False], [solve] drops
    that result and still calls [backtrack], once; the slot it selects
    has an empty domain, so the call returns the failure result without
    trying a word or recursing, and that is what [solve] returns. *)
Theorem solve_after_ac3_failure (fuel : nat) (D2 : store) :
  overlaps_between_slots cw ->
  ac3 cw fuel None (enforce_node_consistency (init cw)) = (Ret false, D2) ->
  solve cw (init cw) =
    (Ret None, {| domains := D2; assignment := []; bt_calls := 1 |}).
Proof.
  intros Hwf Hac. unfold solve.
  set (D1 := enforce_node_consistency (init cw)) in *.
  set (q := initial_queue cw None).
  (* the run inside solve has the same outcome *)
  assert (Hsame : ac3 cw (ac3_fuel cw q D1) None D1 = (Ret false, D2)).
  { unfold ac3 in *. fold q in Hac.
    pose proof (ac3_loop_fuel_enough cw (ac3_fuel cw q D1) q D1) as Hen.
    destruct (ac3_loop cw (ac3_fuel cw q D1) q D1) as [r D'] eqn:E. simpl in Hen.
    assert (Hr : r <> OutOfFuel) by (apply Hen; unfold ac3_fuel; lia).
    pose proof (ac3_loop_more_fuel cw _ _ _ _ _ E Hr fuel) as E1.
    pose proof (ac3_loop_more_fuel cw _ _ _ _ _ Hac ltac:(discriminate)
                  (ac3_fuel cw q D1)) as E2.
    rewrite Nat.add_comm, E1 in E2. inversion E2; subst. exact E. }
  rewrite Hsame.
  (* a slot of the puzzle has an empty domain, and every slot has one *)
  destruct (ac3_loop_false cw (fun x y i j Ho => proj1 (proj2 (Hwf x y i j Ho)))
              _ _ _ _ Hac) as (x & Hx & Hempty).
  assert (Hkeys : forall v, In v (variables cw) -> lookup v D2 <> None).
  { intros v Hv Hnone. apply lookup_None_keys in Hnone.
    rewrite (ac3_loop_keys cw _ _ _ _ _ Hac) in Hnone.
    apply lookup_None_keys in Hnone. unfold D1 in Hnone.
    rewrite keys_enforce_node_consistency, lookup_init in Hnone by assumption.
    discriminate. }
  destruct (select_unassigned_variable_mrv cw [] D2) as (var & Hsel & Hvar & _ & Hmin & _).
  { intros v Hv _. apply Hkeys. assumption. }
  { exists x. split; [assumption|]. split; [reflexivity|].
    unfold domain_size, dom. rewrite Hempty. simpl. unfold sentinel. lia. }
  specialize (Hmin x Hx eq_refl). unfold dom in Hmin. rewrite Hempty in Hmin.
  destruct (lookup var D2) as [d|] eqn:Hd; [|exfalso; apply (Hkeys var Hvar Hd)].
  destruct d as [|w d]; [|simpl in Hmin; lia].
  simpl.
  assert (Hnc : assignment_complete cw [] = false).
  { unfold assignment_complete. apply not_true_is_false. intro Hall.
    rewrite forallb_forall in Hall. specialize (Hall x Hx). discriminate. }
  rewrite Hnc, Hsel, (order_domain_values_empty cw var [] D2 Hd). reflexivity.
Qed.

End Solve.

(** ** No exception on a well-formed puzzle *)

Section Returns.
Context (cw : Crossword).
Context (Hbetween : overlaps_between_slots cw) (Hinside : offsets_in_slots cw).

Lemma dom_update_with_filter f x v D :
  dom v (update_with (filter f) x D) =
  if Slot.eq_dec v x then filter f (dom v D) else dom v D.
Proof.
  unfold dom. rewrite lookup_update_with.
  destruct (Slot.eq_dec v x); [|reflexivity].
  destruct (lookup v D); reflexivity.
Qed.

Lemma shrinks_refl D : shrinks D D.
Proof. intro v. split; [tauto|]. split; [apply incl_refl|lia]. Qed.

Lemma shrinks_trans D1 D2 D3 : shrinks D1 D2 -> shrinks D2 D3 -> shrinks D1 D3.
Proof.
  intros H12 H23 v.
  destruct (H12 v) as (Ha & Hb & Hc). destruct (H23 v) as (Ha' & Hb' & Hc').
  split; [tauto|]. split; [|lia].
  eapply incl_tran; eassumption.
Qed.

Lemma shrinks_update_with_filter f x D : shrinks D (update_with (filter f) x D).
Proof.
  intro v. rewrite dom_update_with_filter, lookup_update_with.
  destruct (Slot.eq_dec v x).
  - split; [destruct (lookup v D); simpl; split; congruence|].
    split; [apply incl_filter|apply filter_length_le].
  - split; [tauto|]. split; [apply incl_refl|lia].
Qed.

Lemma revise_loop_shrinks x y i j : forall snap revised D r D',
  revise_loop x y i j snap revised D = (r, D') -> shrinks D D'.
Proof.
  induction snap as [|w rest IH]; intros revised D r D' H; simpl in H.
  - inversion H. apply shrinks_refl.
  - destruct (dy <- getitem y D;; has_support w i j dy) as [[|]|e|].
    + eapply IH. exact H.
    + eapply shrinks_trans; [|eapply IH; exact H].
      apply (shrinks_update_with_filter (fun u => negb (String.eqb u w)) x D).
    + inversion H. apply shrinks_refl.
    + inversion H. apply shrinks_refl.
Qed.

Lemma revise_shrinks x y D r D' : revise cw x y D = (r, D') -> shrinks D D'.
Proof.
  unfold revise. destruct (overlaps cw x y) as [[i j]|].
  - destruct (getitem x D) as [dx|e|].
    + apply revise_loop_shrinks.
    + intro H. inversion H. apply shrinks_refl.
    + intro H. inversion H. apply shrinks_refl.
  - intro H. inversion H. apply shrinks_refl.
Qed.

Lemma ac3_loop_shrinks : forall fuel queue D r D',
  ac3_loop cw fuel queue D = (r, D') -> shrinks D D'.
Proof.
  induction fuel as [|fuel IH]; intros queue D r D' H;
    destruct queue as [|[x y] queue]; simpl in H;
    try (inversion H; apply shrinks_refl).
  destruct (revise cw x y D) as [r1 D1] eqn:Hr.
  apply revise_shrinks in Hr.
  destruct r1 as [[|]|e|]; try (inversion H; subst; assumption).
  - destruct (getitem x D1) as [dx|e|]; try (inversion H; subst; assumption).
    destruct (List.length dx =? 0); [inversion H; subst; assumption|].
    eapply shrinks_trans; [exact Hr|]. eapply IH. exact H.
  - eapply shrinks_trans; [exact Hr|]. eapply IH. exact H.
Qed.

Lemma enforce_node_consistency_shrinks D : shrinks D (enforce_node_consistency D).
Proof.
  intro v. unfold dom, enforce_node_consistency. rewrite lookup_prune_items.
  destruct (lookup v D) as [d|]; simpl.
  - split; [split; discriminate|].
    split; [apply incl_filter|apply filter_length_le].
  - split; [tauto|]. split; [apply incl_refl|lia].
Qed.

Lemma has_domains_shrinks D D' :
  shrinks D D' -> has_domains cw D -> has_domains cw D'.
Proof. intros Hs Hd v Hv Hnone. apply (Hd v Hv). apply (Hs v). assumption. Qed.

Lemma node_consistent_shrinks D D' :
  shrinks D D' -> node_consistent cw D -> node_consistent cw D'.
Proof. intros Hs Hn v w Hv Hw. apply (Hn v w Hv). apply (Hs v). assumption. Qed.

Lemma below_sentinel_shrinks D D' :
  shrinks D D' -> below_sentinel cw D -> below_sentinel cw D'.
Proof.
  intros Hs Hb v Hv. specialize (Hb v Hv). destruct (Hs v) as (_ & _ & Hl).
  unfold domain_size in *. lia.
Qed.

Lemma revise_returns x y D :
  has_domains cw D -> node_consistent cw D ->
  exists b D', revise cw x y D = (Ret b, D').
Proof.
  intros Hd Hn. unfold revise.
  destruct (overlaps cw x y) as [[i j]|] eqn:E; [|eauto].
  destruct (Hbetween x y i j E) as (Hxy & Hx & Hy).
  destruct (Hinside x y i j E) as [Hi Hj].
  unfold getitem.
  destruct (lookup x D) as [dx|] eqn:Hdx; [|exfalso; apply (Hd x Hx Hdx)].
  destruct (lookup y D) as [dy|] eqn:Hdy; [|exfalso; apply (Hd y Hy Hdy)].
  apply (revise_loop_total x y i j Hxy dy dx false D Hdy).
  intros w u Hw Hu. split.
  - rewrite (Hn x w Hx); [assumption|]. unfold dom. rewrite Hdx. assumption.
  - rewrite (Hn y u Hy); [assumption|]. unfold dom. rewrite Hdy. assumption.
Qed.

Lemma ac3_loop_no_raise : forall fuel queue D r D',
  has_domains cw D -> node_consistent cw D ->
  ac3_loop cw fuel queue D = (r, D') -> forall e, r <> Raise e.
Proof.
  induction fuel as [|fuel IH]; intros queue D r D' Hd Hn H e;
    destruct queue as [|[x y] queue]; simpl in H;
    try (inversion H; subst; discriminate).
  destruct (revise_returns x y D Hd Hn) as (b & D1 & Hr). rewrite Hr in H.
  pose proof (revise_shrinks x y D _ D1 Hr) as Hs.
  pose proof (has_domains_shrinks D D1 Hs Hd) as Hd1.
  pose proof (node_consistent_shrinks D D1 Hs Hn) as Hn1.
  destruct b.
  - unfold getitem in H. destruct (lookup x D1) as [dx|] eqn:Hx.
    + destruct (List.length dx =? 0); [inversion H; subst; discriminate|].
      apply (IH _ _ _ _ Hd1 Hn1 H).
    + exfalso. unfold revise in Hr.
      destruct (overlaps cw x y) as [[i j]|] eqn:E; [|discriminate].
      destruct (Hbetween x y i j E) as (_ & Hxv & _). apply (Hd1 x Hxv Hx).
  - apply (IH _ _ _ _ Hd1 Hn1 H).
Qed.

(** On a store with a node-consistent domain for every slot the loop
    raises nothing and ends with a boolean. *)
Lemma ac3_loop_returns (q : list arc) (D : store) :
  has_domains cw D -> node_consistent cw D ->
  exists n b D', forall fuel, n <= fuel -> ac3_loop cw fuel q D = (Ret b, D').
Proof.
  intros Hd Hn.
  exists (ac3_fuel cw q D).
  destruct (ac3_loop cw (ac3_fuel cw q D) q D) as [r D'] eqn:H.
  pose proof (ac3_loop_fuel_enough cw (ac3_fuel cw q D) q D) as Hf.
  rewrite H in Hf. simpl in Hf.
  assert (Hr : r <> OutOfFuel) by (apply Hf; unfold ac3_fuel; lia).
  pose proof (ac3_loop_no_raise _ _ _ _ _ Hd Hn H) as Hraise.
  destruct r as [b|e|]; [|exfalso; apply (Hraise e); reflexivity|congruence].
  exists b, D'. intros fuel Hfuel.
  replace fuel with (ac3_fuel cw q D + (fuel - ac3_fuel cw q D)) by lia.
  apply ac3_loop_more_fuel; assumption.
Qed.

(** *** The heuristics and the consistency test *)

Lemma count_mismatches_total w i j d : forall n,
  i < String.length w -> (forall u, In u d -> j < String.length u) ->
  exists n', count_mismatches w i j d n = Ret n'.
Proof.
  induction d as [|u d IH]; intros n Hi Hj; simpl; [eauto|].
  destruct (get_in_range w i Hi) as [a Ha].
  destruct (get_in_range u j (Hj u (or_introl eq_refl))) as [c Hc].
  unfold bind, index. rewrite Ha, Hc. apply IH; [assumption|].
  intros u' Hu'. apply Hj. simpl. auto.
Qed.

Lemma eliminated_total var a D w others : forall n,
  has_domains cw D -> node_consistent cw D ->
  String.length w = Slot.length var ->
  exists n', eliminated cw var a D w others n = Ret n'.
Proof.
  intros n Hd Hn Hw. revert n.
  induction others as [|o others IH]; intro n; simpl; [eauto|].
  destruct (negb (dict_mem o a) && negb (Slot.eqb o var)); [|apply IH].
  destruct (overlaps cw var o) as [[i j]|] eqn:E; [|apply IH].
  destruct (Hbetween var o i j E) as (_ & _ & Ho).
  destruct (Hinside var o i j E) as [Hi Hj].
  unfold getitem. destruct (lookup o D) as [d|] eqn:Hod; [|exfalso; apply (Hd o Ho Hod)].
  simpl.
  destruct (count_mismatches_total w i j d n) as [n' Hn'].
  - rewrite Hw. assumption.
  - intros u Hu. rewrite (Hn o u Ho); [assumption|]. unfold dom. rewrite Hod. assumption.
  - rewrite Hn'. simpl. apply IH.
Qed.

Lemma domain_values_total var a D : forall d,
  has_domains cw D -> node_consistent cw D ->
  (forall w, In w d -> String.length w = Slot.length var) ->
  exists dv, domain_values cw var a D d = Ret dv.
Proof.
  induction d as [|w d IH]; intros Hd Hn Hl; simpl; [eauto|].
  destruct (eliminated_total var a D w (variables cw) 0 Hd Hn) as [n Hn'].
  { apply Hl. simpl. auto. }
  rewrite Hn'. simpl.
  destruct (IH Hd Hn) as [dv Hdv]. { intros u Hu. apply Hl. simpl. auto. }
  rewrite Hdv. simpl. eauto.
Qed.

Lemma order_domain_values_total var a D :
  has_domains cw D -> node_consistent cw D -> In var (variables cw) ->
  exists ws, order_domain_values cw var a D = Ret ws.
Proof.
  intros Hd Hn Hv. unfold order_domain_values, getitem.
  destruct (lookup var D) as [d|] eqn:E; [|exfalso; apply (Hd var Hv E)].
  simpl. destruct (domain_values_total var a D d Hd Hn) as [dv Hdv].
  { intros w Hw. apply (Hn var w Hv). unfold dom. rewrite E. assumption. }
  rewrite Hdv. simpl. eauto.
Qed.

Lemma consistent_inner_total var word items :
  String.length word = Slot.length var ->
  (forall y u, In (y, u) items -> String.length u = Slot.length y) ->
  exists b, consistent_inner cw var word items = Ret b.
Proof.
  intros Hw. induction items as [|[y u] items IH]; intro Hl; simpl; [eauto|].
  assert (Hrest : forall y' u', In (y', u') items -> String.length u' = Slot.length y')
    by (intros y' u' Hin; apply Hl; simpl; auto).
  destruct (Slot.eq_dec var y); [auto|].
  destruct (String.eqb word u); [eauto|].
  destruct (overlaps cw var y) as [[i j]|] eqn:E; [|auto].
  destruct (Hinside var y i j E) as [Hi Hj].
  rewrite <- Hw in Hi. rewrite <- (Hl y u (or_introl eq_refl)) in Hj.
  destruct (get_in_range word i Hi) as [c1 H1].
  destruct (get_in_range u j Hj) as [c2 H2].
  unfold bind, index. rewrite H1, H2.
  destruct (Ascii.eqb c1 c2); [auto|eauto].
Qed.

Lemma consistent_total a :
  (forall y u, In (y, u) a -> String.length u = Slot.length y) ->
  exists b, consistent cw a = Ret b.
Proof.
  intro Hl. unfold consistent.
  assert (Hgen : forall items, exists b, consistent_outer cw items a = Ret b).
  { induction items as [|[var word] items IH]; simpl; [eauto|].
    destruct (String.length word =? Slot.length var) eqn:E; [|eauto].
    apply Nat.eqb_eq in E.
    destruct (consistent_inner_total var word a E Hl) as [b Hb].
    rewrite Hb. simpl. destruct b; [exact IH|eauto]. }
  apply Hgen.
Qed.

(** *** The search *)

Lemma assignment_ok_lengths D a :
  node_consistent cw D -> assignment_ok cw D a ->
  forall y u, In (y, u) a -> String.length u = Slot.length y.
Proof. intros Hn Ha y u Hin. destruct (Ha y u Hin) as [Hy Hu]. apply Hn; assumption. Qed.

Lemma assignment_ok_set D a var w :
  assignment_ok cw D a -> dict_get a var = None ->
  In var (variables cw) -> In w (dom var D) ->
  assignment_ok cw D (dict_set var w a).
Proof.
  intros Ha Hvar Hv Hw v u Hin. rewrite dict_set_absent in Hin by assumption.
  apply in_app_or in Hin. destruct Hin as [Hin|[E|[]]]; [auto|].
  inversion E; subst. auto.
Qed.

Lemma assignment_incomplete a :
  assignment_complete cw a = false ->
  exists v, In v (variables cw) /\ dict_mem v a = false.
Proof.
  unfold assignment_complete. induction (variables cw) as [|v vs IH]; simpl;
    [discriminate|].
  destruct (dict_mem v a) eqn:E; simpl.
  - intro H. destruct (IH H) as [u [Hu Hm]]. eauto.
  - intros _. eauto.
Qed.

Lemma try_word_quiet recur var w st :
  quiet cw recur ->
  (forall s, domains (snd (recur s)) = domains s) ->
  (forall s s', recur s = (Ret None, s') -> assignment s' = assignment s) ->
  has_domains cw (domains st) -> node_consistent cw (domains st) ->
  below_sentinel cw (domains st) -> assignment_ok cw (domains st) (assignment st) ->
  dict_get (assignment st) var = None ->
  In var (variables cw) -> In w (dom var (domains st)) ->
  forall e, fst (try_word cw recur var w st) <> Raise e.
Proof.
  intros Hq Hdom Hundo Hd Hn Hb Ha Hvar Hv Hw e. unfold try_word.
  set (st1 := with_assignment st (dict_set var w (assignment st))).
  assert (Ha1 : assignment_ok cw (domains st1) (assignment st1))
    by (apply assignment_ok_set; assumption).
  destruct (consistent_total (assignment st1)
              (assignment_ok_lengths _ _ Hn Ha1)) as [b Hc].
  rewrite Hc. destruct b.
  - pose proof (Hq st1 Hd Hn Hb Ha1) as Hr.
    destruct (recur st1) as [r2 s2] eqn:E. simpl in Hr.
    destruct r2 as [[res|]|e2|]; simpl; try discriminate.
    + rewrite (undo_fresh var w (assignment st) s2 Hvar (Hundo st1 s2 E)).
      discriminate.
    + intro F. inversion F; subst. apply (Hr e). reflexivity.
  - rewrite (undo_fresh var w (assignment st) st1 Hvar eq_refl). discriminate.
Qed.

Lemma backtrack_loop_quiet recur var cands :
  quiet cw recur ->
  (forall s, domains (snd (recur s)) = domains s) ->
  (forall s s', recur s = (Ret None, s') -> assignment s' = assignment s) ->
  In var (variables cw) ->
  forall st,
  has_domains cw (domains st) -> node_consistent cw (domains st) ->
  below_sentinel cw (domains st) -> assignment_ok cw (domains st) (assignment st) ->
  dict_get (assignment st) var = None ->
  (forall w, In w cands -> In w (dom var (domains st))) ->
  forall e, fst (backtrack_loop cw recur var cands st) <> Raise e.
Proof.
  intros Hq Hdom Hundo Hv.
  induction cands as [|w cands IH]; intros st Hd Hn Hb Ha Hvar Hc e; simpl;
    [discriminate|].
  pose proof (try_word_quiet recur var w st Hq Hdom Hundo Hd Hn Hb Ha Hvar Hv
                (Hc w (or_introl eq_refl))) as Ht.
  pose proof (try_word_domains cw recur var w st Hdom) as Hsame.
  destruct (try_word cw recur var w st) as [r s1] eqn:E. simpl in Ht, Hsame.
  destruct r as [[res|]|e1|]; simpl; try discriminate.
  - pose proof (try_word_undo cw recur var w st s1 Hundo Hvar E) as Hsa.
    apply IH; rewrite ?Hsame, ?Hsa; try assumption.
    intros u Hu. apply Hc. simpl. auto.
  - intro F. inversion F; subst. apply (Ht e). reflexivity.
Qed.

Lemma backtrack_quiet (fuel : nat) : quiet cw (backtrack cw fuel).
Proof.
  induction fuel as [|fuel IH]; intros st Hd Hn Hb Ha e; simpl; [discriminate|].
  destruct (assignment_complete cw (assignment st)) eqn:Hc; [discriminate|].
  destruct (assignment_incomplete _ Hc) as (v0 & Hv0 & Hm0).
  destruct (select_unassigned_variable_mrv cw (assignment st) (domains st))
    as (var & Hsel & Hvar & Hun & _).
  { intros v Hv _. apply Hd. assumption. }
  { exists v0. split; [assumption|]. split; [assumption|]. apply Hb. assumption. }
  rewrite Hsel.
  destruct (order_domain_values_total var (assignment st) (domains st) Hd Hn Hvar)
    as [cands Hord].
  rewrite Hord.
  apply order_domain_values_perm in Hord. destruct Hord as (d & Hdl & Hperm).
  apply (backtrack_loop_quiet (backtrack cw fuel) var cands IH
           (backtrack_domains cw fuel) (backtrack_undo cw fuel) Hvar
           (enter_backtrack st) Hd Hn Hb Ha).
  - apply dict_mem_false. assumption.
  - intros w Hw. simpl. unfold dom. rewrite Hdl.
    apply (Permutation_in w Hperm Hw).
Qed.

(** X16. On a puzzle whose overlaps lie between and inside its slots
    and whose vocabulary is no larger than the sentinel, [solve] returns:
    an assignment or the failure result, never an exception. *)
Lemma solve_returns :
  (N.of_nat (List.length (words cw)) <= sentinel)%N ->
  exists r st', solve cw (init cw) = (Ret r, st').
Proof.
  intro Hvoc.
  pose proof (solve_terminates cw (init cw)) as Hfuel.
  assert (Hquiet : forall e, fst (solve cw (init cw)) <> Raise e).
  { unfold solve, ac3. set (D1 := enforce_node_consistency (init cw)).
    assert (Hd0 : has_domains cw (init cw)).
    { intros v Hv. rewrite (lookup_init cw v Hv). discriminate. }
    assert (Hb0 : below_sentinel cw (init cw)).
    { intros v Hv. unfold domain_size, dom. rewrite (lookup_init cw v Hv). exact Hvoc. }
    pose proof (enforce_node_consistency_shrinks (init cw)) as Hs0. fold D1 in Hs0.
    pose proof (has_domains_shrinks _ _ Hs0 Hd0) as Hd1.
    pose proof (below_sentinel_shrinks _ _ Hs0 Hb0) as Hb1.
    assert (Hn1 : node_consistent cw D1).
    { intros v w Hv Hw.
      apply (node_consistent_In (init cw) v (words cw) w (lookup_init cw v Hv)) in Hw.
      apply Hw. }
    destruct (ac3_loop cw _ (initial_queue cw None) D1) as [r D2] eqn:Hac.
    pose proof (ac3_loop_shrinks _ _ _ _ _ Hac) as Hs.
    pose proof (ac3_loop_no_raise _ _ _ _ _ Hd1 Hn1 Hac) as Hr.
    destruct r as [b|e0|]; [|intros e F; apply (Hr e0); reflexivity|discriminate].
    apply backtrack_quiet; simpl.
    - apply (has_domains_shrinks D1 D2 Hs Hd1).
    - apply (node_consistent_shrinks D1 D2 Hs Hn1).
    - apply (below_sentinel_shrinks D1 D2 Hs Hb1).
    - intros v w []. }
  destruct (solve cw (init cw)) as [r st']. simpl in *.
  destruct r as [r|e|]; [eauto|exfalso; apply (Hquiet e); reflexivity|congruence].
Qed.

End Returns.

(** X12. On a puzzle whose overlap entries relate distinct slots, with
    offsets inside them, and a store with a node-consistent domain for
    every slot, [ac3] started on its default arcs, or on arcs that are
    keys of the overlaps dict, raises no exception and terminates: it
    returns a boolean. *)
Theorem ac3_returns (cw : Crossword) (arcs : option (list arc)) (D : store) :
  overlaps_wf cw -> offsets_in_slots cw -> arcs_are_keys cw arcs ->
  has_domains cw D -> node_consistent cw D ->
  exists n b D', forall fuel, n <= fuel -> ac3 cw fuel arcs D = (Ret b, D').
Proof.
  intros Hwf Hinside _ Hd Hn. unfold ac3.
  apply (ac3_loop_returns cw (wf_slots cw Hwf) Hinside (initial_queue cw arcs) D Hd Hn).
Qed.

(** ** The concrete puzzles *)

Lemma example_between_slots a b i j vocabulary :
  a <> b -> overlaps_between_slots (Example.puzzle a b i j vocabulary).
Proof.
  intros Hab x y i' j' H. simpl in H. unfold Example.cross in H.
  destruct (Slot.eq_dec x a) as [->|_].
  - destruct (Slot.eq_dec y b) as [->|_]; [|discriminate].
    split; [assumption|]. simpl. auto.
  - destruct (Slot.eq_dec x b) as [->|_]; [|discriminate].
    destruct (Slot.eq_dec y a) as [->|_]; [|discriminate].
    split; [congruence|]. simpl. auto.
Qed.

Lemma example_overlaps_wf a b i j vocabulary :
  a <> b -> overlaps_wf (Example.puzzle a b i j vocabulary).
Proof.
  intro Hab. split.
  - apply example_between_slots. assumption.
  - intros x y i' j' H. simpl in *. unfold Example.cross in *.
    destruct (Slot.eq_dec x a) as [->|Hxa].
    + destruct (Slot.eq_dec y b) as [->|_]; [|discriminate].
      inversion H; subst.
      destruct (Slot.eq_dec b a); [congruence|].
      destruct (Slot.eq_dec b b); [|congruence].
      destruct (Slot.eq_dec a a); [reflexivity|congruence].
    + destruct (Slot.eq_dec x b) as [->|_]; [|discriminate].
      destruct (Slot.eq_dec y a) as [->|_]; [|discriminate].
      inversion H; subst.
      destruct (Slot.eq_dec a a); [|congruence].
      destruct (Slot.eq_dec b b); [reflexivity|congruence].
  - intros x y i' j' H. simpl in *. unfold Example.cross in H.
    destruct (Slot.eq_dec x a) as [->|_].
    + destruct (Slot.eq_dec y b) as [->|_]; [|discriminate]. auto.
    + destruct (Slot.eq_dec x b) as [->|_]; [|discriminate].
      destruct (Slot.eq_dec y a) as [->|_]; [|discriminate]. auto.
Qed.

(** The scenario of the specification: [solve] fills both slots, and the
    middle letters agree. *)
Example solve_example :
  fst (solve Example.cw (init Example.cw)) =
  Ret (Some [(Example.A, "CAT"%string); (Example.B, "BAT"%string)]).
Proof. vm_compute. reflexivity. Qed.

(** A single slot takes a word of its length. *)
Example solve_single :
  fst (solve (Example.single ["HELLO"; "DOG"; "CAT"]%string)
             (init (Example.single ["HELLO"; "DOG"; "CAT"]%string))) =
  Ret (Some [(Example.A, "DOG"%string)]).
Proof. vm_compute. reflexivity. Qed.

(** A slot whose length no word has: node consistency empties its
    domain and [solve] returns the failure result. *)
Example solve_no_word :
  fst (solve (Example.single ["HELLO"]%string)
             (init (Example.single ["HELLO"]%string))) = Ret None.
Proof. vm_compute. reflexivity. Qed.

Lemma solve_sound_witness :
  complete Example.cw [(Example.A, "CAT"%string); (Example.B, "BAT"%string)] /\
  lengths_match [(Example.A, "CAT"%string); (Example.B, "BAT"%string)] /\
  words_distinct [(Example.A, "CAT"%string); (Example.B, "BAT"%string)] /\
  overlaps_agree Example.cw [(Example.A, "CAT"%string); (Example.B, "BAT"%string)].
Proof.
  apply (solve_sound Example.cw (init Example.cw) _
           (snd (solve Example.cw (init Example.cw)))).
  vm_compute. reflexivity.
Defined.

Lemma solve_complete_witness :
  ~ exists sol, complete Example.cw_unsat sol /\
                globally_consistent Example.cw_unsat sol /\
                from_vocabulary Example.cw_unsat sol.
Proof.
  apply (solve_complete Example.cw_unsat
           (snd (solve Example.cw_unsat (init Example.cw_unsat)))).
  - apply example_between_slots. discriminate.
  - vm_compute. reflexivity.
Defined.

Lemma ac3_arc_consistent_witness :
  exists dy u,
    lookup Example.B
      (snd (ac3 Example.cw 8 None
              [(Example.A, ["CAT"; "DOG"; "BAT"]%string);
               (Example.B, ["TAN"; "TEN"; "BIT"]%string)])) = Some dy /\
    In u dy /\ agree 1 1 "BAT"%string u.
Proof.
  apply (ac3_arc_consistent Example.cw 8
           [(Example.A, ["CAT"; "DOG"; "BAT"]%string);
            (Example.B, ["TAN"; "TEN"; "BIT"]%string)]
           _ Example.A Example.B 1 1 ["CAT"; "BAT"]%string "BAT"%string).
  - apply example_overlaps_wf. discriminate.
  - vm_compute. reflexivity.
  - reflexivity.
  - vm_compute. reflexivity.
  - simpl. auto.
Defined.

Lemma backtrack_failure_restores_witness :
  assignment
    (snd (backtrack Example.cw_unsat 2
            {| domains := init Example.cw_unsat;
               assignment := [(Example.A, "CAT"%string)];
               bt_calls := 0 |})) =
  [(Example.A, "CAT"%string)].
Proof.
  apply (backtrack_failure_restores Example.cw_unsat 2
           {| domains := init Example.cw_unsat;
              assignment := [(Example.A, "CAT"%string)];
              bt_calls := 0 |}).
  vm_compute. reflexivity.
Defined.

Lemma solve_after_ac3_failure_witness :
  solve Example.cw_unsat (init Example.cw_unsat) =
  (Ret None,
   {| domains := [(Example.A, []); (Example.C, ["CAT"%string])];
      assignment := [];
      bt_calls := 1 |}).
Proof.
  apply (solve_after_ac3_failure Example.cw_unsat 1).
  - apply example_between_slots. discriminate.
  - vm_compute. reflexivity.
Defined.

(** C1, as the specification states it, fails: on a puzzle where [ac3]
    returns [False], [solve] returns the failure result only after it has
    called [backtrack]. *)
Lemma solve_skips_backtrack_counterexample :
  ~ (ac3 Example.cw_unsat 1 None
         (enforce_node_consistency (init Example.cw_unsat)) =
       (Ret false, [(Example.A, []); (Example.C, ["CAT"%string])]) ->
     fst (solve Example.cw_unsat (init Example.cw_unsat)) = Ret None /\
     bt_calls (snd (solve Example.cw_unsat (init Example.cw_unsat))) = 0).
Proof.
  intro H. assert (Hac : ac3 Example.cw_unsat 1 None
         (enforce_node_consistency (init Example.cw_unsat)) =
       (Ret false, [(Example.A, []); (Example.C, ["CAT"%string])]))
    by (vm_compute; reflexivity).
  destruct (H Hac) as [_ Hcalls]. vm_compute in Hcalls. discriminate.
Qed.

(** ** The heuristic of [select_unassigned_variable] *)



(** * Further properties of the solver *)

(** ** More on [sorted] *)

Section SortedMore.
Context {A : Type} (key : A -> nat).


Lemma insert_asc_In x y l : In y (insert_asc key x l) <-> y = x \/ In y l.
Proof.
  split; intro H.
  - apply (Permutation_in _ (insert_asc_perm key x l)) in H.
    destruct H as [<-|H]; auto.
  - apply (Permutation_in _ (Permutation_sym (insert_asc_perm key x l))).
    destruct H as [->|H]; simpl; auto.
Qed.

Lemma insert_asc_sorted x l :
  StronglySorted (fun a b => key a <= key b) l ->
  StronglySorted (fun a b => key a <= key b) (insert_asc key x l).
Proof.
  induction l as [|y l IH]; intro H; simpl.
  - constructor; constructor.
  - inversion H as [|? ? Hs Hf]; subst.
    destruct (key x <=? key y) eqn:Hle.
    + apply Nat.leb_le in Hle. constructor; [assumption|].
      constructor; [assumption|].
      rewrite Forall_forall in *. intros z Hz. specialize (Hf z Hz). lia.
    + apply Nat.leb_gt in Hle. constructor; [apply IH; assumption|].
      rewrite Forall_forall in *. intros z Hz.
      apply insert_asc_In in Hz. destruct Hz as [->|Hz]; [lia|auto].
Qed.

Lemma sorted_sorted l : StronglySorted (fun a b => key a <= key b) (sorted key l).
Proof.
  induction l as [|x l IH]; simpl; [constructor|].
  apply insert_asc_sorted. assumption.
Qed.

End SortedMore.

(** ** More on [select_unassigned_variable] *)

Section SelectMore.
Context (cw : Crossword).


Lemma select_scan_assigned a D : forall vars s best,
  (forall v, In v vars -> dict_mem v a = true) ->
  select_scan vars a D s best = Ret (s, best).
Proof.
  induction vars as [|var rest IH]; intros s best H; simpl; [reflexivity|].
  rewrite (H var (or_introl eq_refl)). apply IH. intros v Hv. apply H. simpl. auto.
Qed.



(** X3. With a domain for every slot and none beyond the sentinel,
    [select_unassigned_variable] returns [None] exactly when every slot
    has an entry in the assignment, as the comment at its [return None]
    says. *)
Theorem select_unassigned_variable_none (a : dict) (D : store) :
  has_domains cw D -> below_sentinel cw D ->
  (select_unassigned_variable cw a D = Ret None <->
   assignment_complete cw a = true).
Proof.
  intros Hd Hb. split.
  - intro Hnone. destruct (assignment_complete cw a) eqn:Hc; [reflexivity|].
    destruct (assignment_incomplete cw a Hc) as (v0 & Hv0 & Hm0).
    destruct (select_unassigned_variable_mrv cw a D) as (var & Hsel & _).
    + intros v Hv _. apply Hd. assumption.
    + exists v0. split; [assumption|]. split; [assumption|]. apply Hb. assumption.
    + rewrite Hsel in Hnone. discriminate.
  - intro Hc. unfold assignment_complete in Hc. rewrite forallb_forall in Hc.
    unfold select_unassigned_variable.
    rewrite (select_scan_assigned a D (variables cw) sentinel [] Hc). reflexivity.
Qed.

End SelectMore.



Lemma example_has_domains : has_domains Example.cw (init Example.cw).
Proof. intros v Hv. rewrite (lookup_init Example.cw v Hv). discriminate. Qed.

Lemma example_below_sentinel : below_sentinel Example.cw (init Example.cw).
Proof.
  intros v Hv. unfold domain_size, dom. rewrite (lookup_init Example.cw v Hv).
  vm_compute. discriminate.
Qed.

Lemma select_unassigned_variable_none_witness :
  select_unassigned_variable Example.cw
    [(Example.A, "CAT"%string); (Example.B, "BAT"%string)] (init Example.cw) = Ret None <->
  assignment_complete Example.cw
    [(Example.A, "CAT"%string); (Example.B, "BAT"%string)] = true.
Proof.
  apply (select_unassigned_variable_none Example.cw
           [(Example.A, "CAT"%string); (Example.B, "BAT"%string)] (init Example.cw)).
  - exact example_has_domains.
  - exact example_below_sentinel.
Defined.

(** ** More on [order_domain_values] *)

Section OrderingMore.
Context (cw : Crossword).

Lemma count_mismatches_Ret w i j d : forall n n',
  count_mismatches w i j d n = Ret n' ->
  n' = n + List.length (filter (fun u => negb (agreeb i j w u)) d).
Proof.
  induction d as [|u d IH]; intros n n' H; simpl in H.
  - inversion H. simpl. lia.
  - unfold bind, index in H. simpl. unfold agreeb at 1.
    destruct (String.get i w) as [c1|]; [|discriminate].
    destruct (String.get j u) as [c2|]; [|discriminate].
    apply IH in H. destruct (Ascii.eqb c1 c2); simpl; lia.
Qed.

Lemma eliminated_Ret var a D w others : forall n n',
  eliminated cw var a D w others n = Ret n' ->
  n' = n + list_sum (map (ruled_out_in cw var a D w) others).
Proof.
  induction others as [|o others IH]; intros n n' H; simpl in H.
  - inversion H. simpl. lia.
  - simpl. unfold ruled_out_in at 1.
    destruct (negb (dict_mem o a) && negb (Slot.eqb o var)).
    + destruct (overlaps cw var o) as [[i j]|].
      * unfold getitem, dom in *. destruct (lookup o D) as [d|]; simpl in H;
          [|discriminate].
        destruct (count_mismatches w i j d n) as [m| |] eqn:Hc; simpl in H;
          try discriminate.
        apply count_mismatches_Ret in Hc. apply IH in H. lia.
      * apply IH in H. lia.
    + apply IH in H. lia.
Qed.

Lemma domain_values_Ret var a D : forall d dv,
  domain_values cw var a D d = Ret dv ->
  dv = map (fun w => (w, ruled_out cw var a D w)) d.
Proof.
  induction d as [|w d IH]; intros dv H; simpl in H.
  - inversion H. reflexivity.
  - destruct (eliminated cw var a D w (variables cw) 0) as [n| |] eqn:He; simpl in H;
      try discriminate.
    destruct (domain_values cw var a D d) as [rest| |]; simpl in H; try discriminate.
    inversion H; subst. simpl. apply eliminated_Ret in He.
    rewrite (IH rest eq_refl). unfold ruled_out. rewrite He. reflexivity.
Qed.

Lemma sorted_by_count (f : string -> nat) (l : list (string * nat)) :
  (forall p, In p l -> snd p = f (fst p)) ->
  StronglySorted (fun p q => snd p <= snd q) l ->
  StronglySorted (fun w1 w2 => f w1 <= f w2) (map fst l).
Proof.
  intros Hf Hs. induction Hs as [|p l Hs IH Hall]; simpl; constructor.
  - apply IH. intros q Hq. apply Hf. simpl. auto.
  - rewrite Forall_forall in *. intros w Hw.
    apply in_map_iff in Hw. destruct Hw as [q [<- Hq]].
    rewrite <- (Hf p), <- (Hf q) by (simpl; auto). apply Hall. assumption.
Qed.

(** X4. What [order_domain_values] returns is the domain of the slot
    with no word lost or repeated, in ascending order of the number of
    words that each word rules out in the domains of the overlapping
    slots without an entry. *)
Theorem order_domain_values_sorted (var : Slot.t) (a : dict) (D : store)
        (ws : list string) :
  order_domain_values cw var a D = Ret ws ->
  Permutation ws (dom var D) /\
  StronglySorted (fun w1 w2 => ruled_out cw var a D w1 <= ruled_out cw var a D w2) ws.
Proof.
  unfold order_domain_values, getitem, dom.
  destruct (lookup var D) as [d|]; simpl; [|discriminate].
  destruct (domain_values cw var a D d) as [dv| |] eqn:Hdv; simpl; try discriminate.
  intro H. inversion H; subst ws. clear H.
  pose proof (domain_values_Ret var a D d dv Hdv) as Hdv'.
  split.
  - rewrite <- (domain_values_keys cw var a D d dv Hdv).
    apply Permutation_map. apply sorted_perm.
  - apply sorted_by_count; [|apply sorted_sorted].
    intros p Hp.
    apply (Permutation_in p (sorted_perm snd dv)) in Hp.
    rewrite Hdv' in Hp. apply in_map_iff in Hp. destruct Hp as [w [<- _]].
    reflexivity.
Qed.

End OrderingMore.

Lemma order_domain_values_sorted_witness :
  Permutation ["CAT"; "BAT"; "TAN"; "DOG"; "TEN"; "BIT"]%string
              (dom Example.A (init Example.cw)) /\
  StronglySorted
    (fun w1 w2 => ruled_out Example.cw Example.A [] (init Example.cw) w1 <=
                  ruled_out Example.cw Example.A [] (init Example.cw) w2)
    ["CAT"; "BAT"; "TAN"; "DOG"; "TEN"; "BIT"]%string.
Proof.
  apply (order_domain_values_sorted Example.cw Example.A [] (init Example.cw)).
  vm_compute. reflexivity.
Defined.

(** ** More on [consistent] *)

Section ConsistentMore.
Context (cw : Crossword).




Lemma NoDup_keys_get (a : dict) v w :
  NoDup (map fst a) -> In (v, w) a -> dict_get a v = Some w.
Proof.
  induction a as [|[k u] a IH]; simpl; intros Hnd Hin; [destruct Hin|].
  inversion Hnd as [|? ? Hk Hnd']; subst.
  destruct Hin as [E|Hin].
  - inversion E; subst. destruct (Slot.eq_dec v v); congruence.
  - destruct (Slot.eq_dec v k) as [->|_]; [|auto].
    exfalso. apply Hk. apply in_map_iff. exists (k, w). auto.
Qed.


End ConsistentMore.



(** ** More on [revise] *)

Section ReviseMore.
Context (cw : Crossword).

Lemma revise_loop_support x y i j (Hxy : x <> y) : forall snap revised D b D',
  revise_loop x y i j snap revised D = (Ret b, D') ->
  forall w, In w snap ->
    (dy <- getitem y D;; has_support w i j dy) = Ret (supported i j (dom y D) w).
Proof.
  induction snap as [|w0 rest IH]; intros revised D b D' H w Hw; [destruct Hw|].
  simpl in H.
  destruct (dy <- getitem y D;; has_support w0 i j dy) as [bw|e|] eqn:Hs;
    try discriminate.
  assert (Hbw : bw = supported i j (dom y D) w0).
  { unfold getitem, dom in *. destruct (lookup y D) as [dy|]; simpl in Hs;
      [|discriminate]. apply has_support_Ret. assumption. }
  destruct Hw as [<-|Hw]; [congruence|].
  destruct bw.
  - apply (IH _ _ _ _ H w Hw).
  - pose proof (IH _ _ _ _ H w Hw) as Hrec.
    unfold getitem, dom in *.
    rewrite lookup_update_with_other in Hrec by congruence. exact Hrec.
Qed.

Lemma revise_loop_all_supported x y i j : forall snap D,
  (forall w, In w snap -> (dy <- getitem y D;; has_support w i j dy) = Ret true) ->
  revise_loop x y i j snap false D = (Ret false, D).
Proof.
  induction snap as [|w rest IH]; intros D H; simpl; [reflexivity|].
  rewrite (H w (or_introl eq_refl)). apply IH. intros u Hu. apply H. simpl. auto.
Qed.

(** X7. [revise] is idempotent: after a call of [revise(x, y)] that
    returned, for distinct slots, a second call returns [False] and
    changes nothing. *)
Theorem revise_idempotent (x y : Slot.t) (D D' : store) (b : bool) :
  x <> y -> revise cw x y D = (Ret b, D') ->
  revise cw x y D' = (Ret false, D').
Proof.
  intros Hxy H. destruct (overlaps cw x y) as [[i j]|] eqn:Ho.
  - destruct (revise_Ret cw x y i j D b D' Hxy Ho H) as (dx & Hdx & HD' & _).
    unfold revise in H |- *. rewrite Ho in H |- *.
    unfold getitem in H |- *. rewrite Hdx in H.
    rewrite HD' at 1. rewrite lookup_update_with_same, Hdx. simpl.
    apply revise_loop_all_supported. intros w Hw.
    apply filter_In in Hw. destruct Hw as [Hw Hsup].
    pose proof (revise_loop_support x y i j Hxy _ _ _ _ _ H w Hw) as Hrun.
    rewrite Hsup in Hrun. unfold getitem in *.
    rewrite HD', lookup_update_with_other by congruence. exact Hrun.
  - rewrite (revise_no_overlap cw x y D Ho) in H. inversion H; subst.
    apply revise_no_overlap. assumption.
Qed.

End ReviseMore.

Lemma revise_idempotent_witness :
  revise Example.cw Example.A Example.B
    [(Example.A, ["CAT"]%string); (Example.B, ["TAN"; "TEN"]%string)] =
  (Ret false, [(Example.A, ["CAT"]%string); (Example.B, ["TAN"; "TEN"]%string)]).
Proof.
  apply (revise_idempotent Example.cw Example.A Example.B
           [(Example.A, ["CAT"; "DOG"]%string); (Example.B, ["TAN"; "TEN"]%string)]
           _ true).
  - discriminate.
  - vm_compute. reflexivity.
Defined.

(** ** More on [ac3] *)

Section AC3More.
Context (cw : Crossword).

Lemma filtered_refl D : filtered D D.
Proof.
  intro v. exists (fun _ => true).
  destruct (lookup v D); simpl; [rewrite filter_all_true|]; reflexivity.
Qed.

Lemma filtered_trans D1 D2 D3 : filtered D1 D2 -> filtered D2 D3 -> filtered D1 D3.
Proof.
  intros H12 H23 v. destruct (H12 v) as [f Hf]. destruct (H23 v) as [g Hg].
  exists (fun u => f u && g u). rewrite Hg, Hf.
  destruct (lookup v D1); simpl; [rewrite filter_filter|]; reflexivity.
Qed.

Lemma filtered_update_with f x D : filtered D (update_with (filter f) x D).
Proof.
  intro v. rewrite lookup_update_with. destruct (Slot.eq_dec v x).
  - exists f. reflexivity.
  - apply filtered_refl.
Qed.

Lemma revise_loop_filtered x y i j : forall snap revised D r D',
  revise_loop x y i j snap revised D = (r, D') -> filtered D D'.
Proof.
  induction snap as [|w rest IH]; intros revised D r D' H; simpl in H.
  - inversion H. apply filtered_refl.
  - destruct (dy <- getitem y D;; has_support w i j dy) as [[|]|e|].
    + eapply IH. exact H.
    + eapply filtered_trans; [|eapply IH; exact H].
      apply (filtered_update_with (fun u => negb (String.eqb u w)) x D).
    + inversion H. apply filtered_refl.
    + inversion H. apply filtered_refl.
Qed.

Lemma revise_filtered x y D r D' : revise cw x y D = (r, D') -> filtered D D'.
Proof.
  unfold revise. destruct (overlaps cw x y) as [[i j]|].
  - destruct (getitem x D) as [dx|e|].
    + apply revise_loop_filtered.
    + intro H. inversion H. apply filtered_refl.
    + intro H. inversion H. apply filtered_refl.
  - intro H. inversion H. apply filtered_refl.
Qed.

Lemma ac3_loop_filtered : forall fuel queue D r D',
  ac3_loop cw fuel queue D = (r, D') -> filtered D D'.
Proof.
  induction fuel as [|fuel IH]; intros queue D r D' H;
    destruct queue as [|[x y] queue]; simpl in H;
    try (inversion H; apply filtered_refl).
  destruct (revise cw x y D) as [r1 D1] eqn:Hr.
  apply revise_filtered in Hr.
  destruct r1 as [[|]|e|]; try (inversion H; subst; assumption).
  - destruct (getitem x D1) as [dx|e|]; try (inversion H; subst; assumption).
    destruct (List.length dx =? 0); [inversion H; subst; assumption|].
    eapply filtered_trans; [exact Hr|]. eapply IH. exact H.
  - eapply filtered_trans; [exact Hr|]. eapply IH. exact H.
Qed.

(** X8. [ac3] only removes words: whatever the arcs, the fuel and the
    outcome (a boolean or an exception), every slot that had a domain
    still has one, no slot gained one, and each domain is the former
    domain with some words filtered out, the others in their order. *)
Theorem ac3_only_filters (fuel : nat) (arcs : option (list arc)) (D : store)
        (v : Slot.t) :
  exists f, lookup v (snd (ac3 cw fuel arcs D)) = option_map (filter f) (lookup v D).
Proof.
  unfold ac3.
  destruct (ac3_loop cw fuel (initial_queue cw arcs) D) as [r D'] eqn:H.
  apply (ac3_loop_filtered _ _ _ _ _ H v).
Qed.

(** X9. [ac3] removes no word of a solution: if a complete, globally
    consistent assignment takes every word from the domain of its slot
    before [ac3] runs (on any arcs), it still does when [ac3] returns. *)
Theorem ac3_keeps_solutions (fuel : nat) (arcs : option (list arc))
        (D D' : store) (b : bool) (sol : dict) :
  overlaps_between_slots cw ->
  complete cw sol -> globally_consistent cw sol -> within cw sol D ->
  ac3 cw fuel arcs D = (Ret b, D') ->
  within cw sol D'.
Proof.
  intros Hwf Hcomp Hcons Hin H.
  apply (ac3_loop_keeps_solution cw sol Hwf fuel (initial_queue cw arcs) D b D');
    [|exact H].
  split; [assumption|]. split; assumption.
Qed.

Lemma revise_true_nonempty x y D D' :
  revise cw x y D = (Ret true, D') -> dom x D <> [].
Proof.
  unfold revise. destruct (overlaps cw x y) as [[i j]|]; [|discriminate].
  unfold getitem, dom. destruct (lookup x D) as [dx|]; simpl; [|discriminate].
  destruct dx; [discriminate|]. intros _. discriminate.
Qed.

Lemma ac3_loop_false_emptied : forall fuel queue D D',
  ac3_loop cw fuel queue D = (Ret false, D') ->
  exists x, lookup x D' = Some [] /\ dom x D <> [].
Proof.
  induction fuel as [|fuel IH]; intros queue D D' H;
    destruct queue as [|[x y] queue]; simpl in H; try discriminate.
  destruct (revise cw x y D) as [r1 D1] eqn:Hr.
  destruct r1 as [[|]|e|]; try discriminate.
  - pose proof (revise_true_nonempty x y D D1 Hr) as Hne.
    pose proof (revise_shrinks cw x y D _ D1 Hr) as Hs.
    unfold getitem in H. destruct (lookup x D1) as [dx|] eqn:Hx; [|discriminate].
    destruct dx as [|w dx]; simpl in H.
    + inversion H; subst. exists x. auto.
    + destruct (IH _ _ _ H) as (x' & Hx' & Hne').
      exists x'. split; [assumption|].
      destruct (Hs x') as (_ & _ & Hlen). intro E. rewrite E in Hlen.
      destruct (dom x' D1); [congruence|simpl in Hlen; lia].
  - pose proof (revise_size cw x y D _ D1 Hr) as (_ & _ & Heq & _).
    rewrite (Heq eq_refl) in H. eapply IH. exact H.
Qed.

(** X10. [ac3] returns [False] only when it has emptied a domain: some
    slot whose domain held a word when [ac3] was called has an empty
    domain when it returns [False]. *)
Theorem ac3_false_emptied (fuel : nat) (arcs : option (list arc)) (D D' : store) :
  ac3 cw fuel arcs D = (Ret false, D') ->
  exists x, lookup x D' = Some [] /\ dom x D <> [].
Proof. unfold ac3. apply ac3_loop_false_emptied. Qed.

Lemma revise_consistent_arc x y D :
  overlaps_between_slots cw -> offsets_in_slots cw ->
  has_domains cw D -> node_consistent cw D ->
  (forall i j, overlaps cw x y = Some (i, j) -> arc_consistent D x y i j) ->
  revise cw x y D = (Ret false, D).
Proof.
  intros Hb Hi Hd Hn Hc.
  destruct (overlaps cw x y) as [[i j]|] eqn:Ho; [|apply revise_no_overlap; assumption].
  destruct (revise_returns cw Hb Hi x y D Hd Hn) as (b & D1 & Hr).
  destruct (Hb x y i j Ho) as (Hxy & _).
  destruct (revise_Ret cw x y i j D b D1 Hxy Ho Hr) as (dx & Hdx & _ & Hbv).
  assert (Hfalse : b = false).
  { rewrite Hbv. apply not_true_is_false. intro E. apply existsb_exists in E.
    destruct E as [w [Hw Hs]]. apply negb_true_iff in Hs.
    destruct (Hc i j eq_refl dx w Hdx Hw) as (dy & u & Hy & Hu & Hag).
    assert (supported i j (dom y D) w = true).
    { apply supported_spec. exists u. unfold dom. rewrite Hy. auto. }
    congruence. }
  clear Hbv. subst b.
  pose proof (revise_size cw x y D _ D1 Hr) as (_ & _ & Heq & _).
  rewrite (Heq eq_refl) in Hr. exact Hr.
Qed.

Lemma ac3_loop_fixed D :
  (forall x y, revise cw x y D = (Ret false, D)) ->
  forall queue fuel, List.length queue <= fuel ->
  ac3_loop cw fuel queue D = (Ret true, D).
Proof.
  intro Hrev. induction queue as [|[x y] queue IH]; intros fuel Hf.
  - destruct fuel; reflexivity.
  - destruct fuel as [|fuel]; [simpl in Hf; lia|].
    simpl. rewrite Hrev. apply IH. simpl in Hf. lia.
Qed.

(** X11. [ac3] reaches a fixed point: on a store with a node-consistent
    domain for every slot, after [ac3] with the default arcs has returned
    [True], running it again returns [True] and changes nothing, within
    one turn of the loop per key of the overlaps dict. *)
Theorem ac3_idempotent (fuel fuel' : nat) (D D' : store) :
  overlaps_wf cw -> offsets_in_slots cw ->
  has_domains cw D -> node_consistent cw D ->
  ac3 cw fuel None D = (Ret true, D') ->
  List.length (overlaps_keys cw) <= fuel' ->
  ac3 cw fuel' None D' = (Ret true, D').
Proof.
  intros Hwf Hi Hd Hn H Hfuel. unfold ac3 in *. simpl in *.
  pose proof (ac3_loop_shrinks cw _ _ _ _ _ H) as Hs.
  apply ac3_loop_fixed; [|assumption].
  intros x y. apply revise_consistent_arc; try assumption.
  - apply Hwf.
  - apply (has_domains_shrinks cw D D' Hs Hd).
  - apply (node_consistent_shrinks cw D D' Hs Hn).
  - intros i j Ho.
    apply (ac3_loop_arc_consistent cw Hwf fuel (overlaps_keys cw) D D' H); [|exact Ho].
    intros a b i' j' Hab. left. eapply wf_keys; eassumption.
Qed.

End AC3More.

Lemma example_offsets a b i j vocabulary :
  i < Slot.length a -> j < Slot.length b ->
  offsets_in_slots (Example.puzzle a b i j vocabulary).
Proof.
  intros Hi Hj x y i' j' H. simpl in H. unfold Example.cross in H.
  destruct (Slot.eq_dec x a) as [->|_].
  - destruct (Slot.eq_dec y b) as [->|_]; [|discriminate].
    inversion H; subst. auto.
  - destruct (Slot.eq_dec x b) as [->|_]; [|discriminate].
    destruct (Slot.eq_dec y a) as [->|_]; [|discriminate].
    inversion H; subst. auto.
Qed.

Lemma example_store_has_domains : has_domains Example.cw example_store.
Proof. intros v [<-|[<-|[]]]; vm_compute; discriminate. Qed.

Lemma example_store_node_consistent : node_consistent Example.cw example_store.
Proof.
  intros v w [<-|[<-|[]]] Hw; vm_compute in Hw;
    repeat (destruct Hw as [<-|Hw]; [reflexivity|]); destruct Hw.
Qed.

Lemma ac3_keeps_solutions_witness :
  within Example.cw [(Example.A, "CAT"%string); (Example.B, "TAN"%string)]
         (snd (ac3 Example.cw 8 None example_store)).
Proof.
  apply (ac3_keeps_solutions Example.cw 8 None example_store _ true
           [(Example.A, "CAT"%string); (Example.B, "TAN"%string)]).
  - apply example_between_slots. discriminate.
  - intros v [<-|[<-|[]]]; eexists; reflexivity.
  - apply consistent_sound. vm_compute. reflexivity.
  - intros v w [<-|[<-|[]]] Hw; vm_compute in Hw; inversion Hw; subst;
      vm_compute; auto.
  - vm_compute. reflexivity.
Defined.

Lemma ac3_false_emptied_witness :
  exists x, lookup x [(Example.A, []); (Example.C, ["CAT"%string])] = Some [] /\
            dom x (enforce_node_consistency (init Example.cw_unsat)) <> [].
Proof.
  apply (ac3_false_emptied Example.cw_unsat 1 None).
  vm_compute. reflexivity.
Defined.

Lemma ac3_idempotent_witness :
  ac3 Example.cw 2 None
      [(Example.A, ["CAT"; "BAT"]%string); (Example.B, ["TAN"]%string)] =
  (Ret true, [(Example.A, ["CAT"; "BAT"]%string); (Example.B, ["TAN"]%string)]).
Proof.
  apply (ac3_idempotent Example.cw 8 2 example_store).
  - apply example_overlaps_wf. discriminate.
  - apply example_offsets; simpl; lia.
  - exact example_store_has_domains.
  - exact example_store_node_consistent.
  - vm_compute. reflexivity.
  - simpl. lia.
Defined.

Lemma ac3_returns_witness :
  exists n b D', forall fuel, n <= fuel ->
    ac3 Example.cw fuel (Some [(Example.B, Example.A)]) example_store = (Ret b, D').
Proof.
  apply (ac3_returns Example.cw).
  - apply example_overlaps_wf. discriminate.
  - apply example_offsets; simpl; lia.
  - intros l E. inversion E; subst l. intros arc [<-|[]]. simpl. auto.
  - exact example_store_has_domains.
  - exact example_store_node_consistent.
Defined.

Lemma solve_returns_witness :
  exists r st', solve Example.cw (init Example.cw) = (Ret r, st').
Proof.
  apply (solve_returns Example.cw).
  - apply example_between_slots. discriminate.
  - apply example_offsets; simpl; lia.
  - vm_compute. discriminate.
Defined.

(** ** More on [enforce_node_consistency] *)

(** X17. [enforce_node_consistency] is idempotent: a second run finds no
    word to remove from any domain. *)
Theorem enforce_node_consistency_idempotent (D : store) (v : Slot.t) :
  lookup v (enforce_node_consistency (enforce_node_consistency D)) =
  lookup v (enforce_node_consistency D).
Proof.
  unfold enforce_node_consistency at 1. rewrite lookup_prune_items.
  destruct (lookup v (enforce_node_consistency D)) as [d'|] eqn:E; simpl;
    [|reflexivity].
  f_equal. transitivity (filter (fun _ : string => true) d');
    [|apply filter_all_true].
  apply filter_ext_in. intros u Hu.
  rewrite (pruned_by_items (enforce_node_consistency D) v d' u E Hu), negb_involutive.
  destruct (lookup v D) as [d|] eqn:Ed.
  - assert (Hin : In u (dom v (enforce_node_consistency D)))
      by (unfold dom; rewrite E; exact Hu).
    apply (node_consistent_In D v d u Ed) in Hin.
    unfold length_ok. apply Nat.eqb_eq. apply Hin.
  - apply keys_enforce_node_consistency in Ed. congruence.
Qed.

(** ** More on [backtrack] *)

Section BacktrackMore.
Context (cw : Crossword).

Lemma try_word_agree recur recur' var w st r st' :
  (forall s r2 s2, recur s = (r2, s2) -> r2 <> OutOfFuel -> recur' s = (r2, s2)) ->
  try_word cw recur var w st = (r, st') -> r <> OutOfFuel ->
  try_word cw recur' var w st = (r, st').
Proof.
  intros Hag. unfold try_word.
  set (st1 := with_assignment st (dict_set var w (assignment st))).
  destruct (consistent cw (assignment st1)) as [[|]|e|]; try (intros; assumption).
  destruct (recur st1) as [r2 s2] eqn:E.
  destruct r2 as [[res|]|e|]; intros H Hr;
    try (rewrite (Hag st1 _ s2 E ltac:(discriminate)); exact H).
  inversion H; subst. congruence.
Qed.

Lemma backtrack_loop_agree recur recur' var cands :
  (forall s r2 s2, recur s = (r2, s2) -> r2 <> OutOfFuel -> recur' s = (r2, s2)) ->
  forall st r st',
  backtrack_loop cw recur var cands st = (r, st') -> r <> OutOfFuel ->
  backtrack_loop cw recur' var cands st = (r, st').
Proof.
  intro Hag. induction cands as [|w cands IH]; intros st r st' H Hr; simpl in *;
    [assumption|].
  destruct (try_word cw recur var w st) as [r1 s1] eqn:E.
  assert (Hr1 : r1 <> OutOfFuel).
  { intro F. subst r1. inversion H; subst. congruence. }
  rewrite (try_word_agree recur recur' var w st r1 s1 Hag E Hr1).
  destruct r1 as [[res|]|e|]; try assumption. apply IH; assumption.
Qed.

Lemma backtrack_more_fuel : forall fuel st r st',
  backtrack cw fuel st = (r, st') -> r <> OutOfFuel ->
  forall k, backtrack cw (fuel + k) st = (r, st').
Proof.
  induction fuel as [|fuel IH]; intros st r st' H Hr k; simpl in H.
  - inversion H; subst. congruence.
  - simpl.
    destruct (assignment_complete cw (assignment st)); [assumption|].
    destruct (select_unassigned_variable cw (assignment st) (domains st))
      as [[var|]|e|]; try assumption.
    destruct (order_domain_values cw var (assignment st) (domains st))
      as [cands|e|]; try assumption.
    apply (backtrack_loop_agree (backtrack cw fuel) (backtrack cw (fuel + k)));
      try assumption.
    intros s r2 s2 E Hr2. apply IH; assumption.
Qed.

(** X13. [backtrack] terminates, and its recursion is no deeper than the
    number of slots without an entry, plus one: with that much fuel or
    more the outcome is one and the same, and it is a returned value or
    an exception. *)
Theorem backtrack_terminates (st : state) :
  exists r st',
    r <> OutOfFuel /\
    forall fuel, unassigned cw (assignment st) < fuel ->
      backtrack cw fuel st = (r, st').
Proof.
  set (n := S (unassigned cw (assignment st))).
  destruct (backtrack cw n st) as [r st'] eqn:H.
  exists r, st'.
  assert (Hr : r <> OutOfFuel).
  { pose proof (backtrack_fuel_enough cw n st) as E. rewrite H in E.
    apply E. unfold n. lia. }
  split; [exact Hr|]. intros fuel Hf.
  replace fuel with (n + (fuel - n)) by (unfold n; lia).
  apply backtrack_more_fuel; assumption.
Qed.

(** *** What the search adds *)

Lemma try_word_grows recur var w st res st' :
  (forall s r s', recur s = (Ret (Some r), s') ->
     exists added,
       r = assignment s ++ added /\ NoDup (map fst added) /\
       forall v u, In (v, u) added ->
         In v (variables cw) /\ dict_get (assignment s) v = None /\
         In u (dom v (domains s))) ->
  dict_get (assignment st) var = None ->
  In var (variables cw) -> In w (dom var (domains st)) ->
  try_word cw recur var w st = (Ret (Some res), st') ->
  exists added,
    res = assignment st ++ added /\ NoDup (map fst added) /\
    forall v u, In (v, u) added ->
      In v (variables cw) /\ dict_get (assignment st) v = None /\
      In u (dom v (domains st)).
Proof.
  intros Hrec Hvar Hv Hw. unfold try_word, undo.
  set (st1 := with_assignment st (dict_set var w (assignment st))).
  destruct (consistent cw (assignment st1)) as [[|]|e|]; try discriminate.
  - destruct (recur st1) as [r2 s2] eqn:E.
    destruct r2 as [[r|]|e|]; try discriminate.
    + intro H. inversion H; subst r s2. clear H.
      destruct (Hrec st1 res st' E) as (added & Hres & Hnd & Hall).
      simpl in Hres, Hall.
      exists ((var, w) :: added). split; [|split].
      * rewrite Hres, dict_set_absent by assumption.
        rewrite <- app_assoc. reflexivity.
      * simpl. constructor; [|assumption]. intro Hin.
        apply in_map_iff in Hin. destruct Hin as [[v u] [Hfst Hin]].
        simpl in Hfst. subst v.
        destruct (Hall var u Hin) as (_ & Hnone & _).
        rewrite dict_get_set in Hnone.
        destruct (Slot.eq_dec var var); [discriminate|congruence].
      * intros v u [Heq|Hin].
        -- inversion Heq; subst. auto.
        -- destruct (Hall v u Hin) as (H1 & H2 & H3).
           rewrite dict_get_set in H2.
           destruct (Slot.eq_dec v var); [discriminate|]. auto.
    + destruct (dict_del var (assignment s2)); discriminate.
  - destruct (dict_del var (assignment st1)); discriminate.
Qed.

Lemma backtrack_loop_grows recur var cands :
  (forall s r s', recur s = (Ret (Some r), s') ->
     exists added,
       r = assignment s ++ added /\ NoDup (map fst added) /\
       forall v u, In (v, u) added ->
         In v (variables cw) /\ dict_get (assignment s) v = None /\
         In u (dom v (domains s))) ->
  (forall s, domains (snd (recur s)) = domains s) ->
  (forall s s', recur s = (Ret None, s') -> assignment s' = assignment s) ->
  In var (variables cw) ->
  forall st res st',
  dict_get (assignment st) var = None ->
  (forall w, In w cands -> In w (dom var (domains st))) ->
  backtrack_loop cw recur var cands st = (Ret (Some res), st') ->
  exists added,
    res = assignment st ++ added /\ NoDup (map fst added) /\
    forall v u, In (v, u) added ->
      In v (variables cw) /\ dict_get (assignment st) v = None /\
      In u (dom v (domains st)).
Proof.
  intros Hrec Hdom Hundo Hv.
  induction cands as [|w cands IH]; intros st res st' Hvar Hc H; simpl in H;
    [discriminate|].
  destruct (try_word cw recur var w st) as [r s1] eqn:E.
  destruct r as [[r|]|e|]; try discriminate.
  - inversion H; subst.
    apply (try_word_grows recur var w st res st' Hrec Hvar Hv
             (Hc w (or_introl eq_refl)) E).
  - pose proof (try_word_undo cw recur var w st s1 Hundo Hvar E) as Ha.
    pose proof (try_word_domains cw recur var w st Hdom) as Hd.
    rewrite E in Hd. simpl in Hd.
    destruct (IH s1 res st') as (added & H1 & H2 & H3).
    + rewrite Ha. assumption.
    + intros u Hu. rewrite Hd. apply Hc. simpl. auto.
    + assumption.
    + exists added. rewrite <- Ha, <- Hd. auto.
Qed.

Lemma backtrack_grows (fuel : nat) : forall st res st',
  backtrack cw fuel st = (Ret (Some res), st') ->
  exists added,
    res = assignment st ++ added /\ NoDup (map fst added) /\
    forall v u, In (v, u) added ->
      In v (variables cw) /\ dict_get (assignment st) v = None /\
      In u (dom v (domains st)).
Proof.
  induction fuel as [|fuel IH]; intros st res st' H; simpl in H; [discriminate|].
  destruct (assignment_complete cw (assignment st)).
  - inversion H; subst. exists []. simpl. rewrite app_nil_r.
    split; [reflexivity|]. split; [constructor|]. intros v u [].
  - destruct (select_unassigned_variable cw (assignment st) (domains st))
      as [[var|]|e|] eqn:Hsel; try discriminate.
    destruct (order_domain_values cw var (assignment st) (domains st))
      as [cands|e|] eqn:Hord; try discriminate.
    apply select_unassigned_variable_unassigned in Hsel. destruct Hsel as [Hin Hun].
    apply dict_mem_false in Hun.
    apply order_domain_values_perm in Hord. destruct Hord as (d & Hd & Hperm).
    apply (backtrack_loop_grows (backtrack cw fuel) var cands IH
             (backtrack_domains cw fuel) (backtrack_undo cw fuel) Hin
             (enter_backtrack st) res st' Hun); [|exact H].
    intros w Hw. simpl. unfold dom. rewrite Hd. apply (Permutation_in w Hperm Hw).
Qed.

(** X14. An assignment returned by [backtrack] is the dict it was given
    followed by new entries: one for each of some slots of the puzzle
    that had none, no slot twice, each with a word of the current domain
    of its slot. No entry it was given is changed, removed or moved. *)
Theorem backtrack_result_extends (fuel : nat) (st st' : state) (res : dict) :
  backtrack cw fuel st = (Ret (Some res), st') ->
  exists added,
    res = assignment st ++ added /\ NoDup (map fst added) /\
    forall v u, In (v, u) added ->
      In v (variables cw) /\ dict_get (assignment st) v = None /\
      In u (dom v (domains st)).
Proof. apply backtrack_grows. Qed.

(** X15. An assignment returned by [solve] on the initial store has
    exactly one entry for each slot of the puzzle and none for anything
    else, and the word of each entry is a word of the vocabulary that
    also survived in the domain of its slot. *)
Theorem solve_assigns_vocabulary (a : dict) (st' : state) :
  solve cw (init cw) = (Ret (Some a), st') ->
  NoDup (map fst a) /\
  (forall v, In v (map fst a) <-> In v (variables cw)) /\
  (forall v w, In (v, w) a -> In w (words cw) /\ In w (dom v (domains st'))).
Proof.
  unfold solve, ac3. set (D1 := enforce_node_consistency (init cw)).
  destruct (ac3_loop cw _ (initial_queue cw None) D1) as [r D2] eqn:Hac.
  destruct r as [b|e|]; try discriminate.
  intro H.
  pose proof (backtrack_domains cw (S (List.length (variables cw)))
                {| domains := D2; assignment := []; bt_calls := 0 |}) as Hdom.
  rewrite H in Hdom. simpl in Hdom.
  destruct (backtrack_result cw _ _ _ _ H) as (_ & Hcomp & _).
  destruct (backtrack_grows _ _ _ _ H) as (added & Hres & Hnd & Hall).
  simpl in Hres, Hall. subst a.
  split; [exact Hnd|]. split.
  - intro v. split.
    + intro Hv. apply in_map_iff in Hv. destruct Hv as [[v' u] [Hfst Hin]].
      simpl in Hfst. subst v'. apply (Hall v u Hin).
    + intro Hv. unfold assignment_complete in Hcomp.
      rewrite forallb_forall in Hcomp. specialize (Hcomp v Hv).
      unfold dict_mem in Hcomp. destruct (dict_get added v) as [u|] eqn:E;
        [|discriminate].
      apply dict_get_In in E. apply in_map_iff. exists (v, u). auto.
  - intros v w Hin. destruct (Hall v w Hin) as (Hv & _ & Hw).
    rewrite Hdom. split; [|assumption].
    destruct (ac3_loop_shrinks cw _ _ _ _ _ Hac v) as (_ & Hincl & _).
    apply Hincl in Hw.
    apply (node_consistent_In (init cw) v (words cw) w (lookup_init cw v Hv)) in Hw.
    apply Hw.
Qed.

End BacktrackMore.

Lemma backtrack_result_extends_witness :
  exists added,
    [(Example.A, "CAT"%string); (Example.B, "BAT"%string)] =
      [(Example.A, "CAT"%string)] ++ added /\ NoDup (map fst added) /\
    forall v u, In (v, u) added ->
      In v (variables Example.cw) /\
      dict_get [(Example.A, "CAT"%string)] v = None /\
      In u (dom v (init Example.cw)).
Proof.
  apply (backtrack_result_extends Example.cw 2
           {| domains := init Example.cw;
              assignment := [(Example.A, "CAT"%string)];
              bt_calls := 0 |}
           (snd (backtrack Example.cw 2
                   {| domains := init Example.cw;
                      assignment := [(Example.A, "CAT"%string)];
                      bt_calls := 0 |}))).
  vm_compute. reflexivity.
Defined.

Lemma solve_assigns_vocabulary_witness :
  NoDup (map fst [(Example.A, "CAT"%string); (Example.B, "BAT"%string)]) /\
  (forall v, In v (map fst [(Example.A, "CAT"%string); (Example.B, "BAT"%string)]) <->
             In v (variables Example.cw)) /\
  (forall v w, In (v, w) [(Example.A, "CAT"%string); (Example.B, "BAT"%string)] ->
     In w (words Example.cw) /\
     In w (dom v (domains (snd (solve Example.cw (init Example.cw)))))).
Proof.
  apply (solve_assigns_vocabulary Example.cw).
  vm_compute. reflexivity.
Defined.

(** ** [letter_grid] *)

Section LetterGrid.

Lemma length_list_set {A} (x : A) : forall l n, List.length (list_set n x l) = List.length l.
Proof.
  induction l as [|h t IH]; intros n; destruct n; simpl; try reflexivity.
  rewrite IH. reflexivity.
Qed.

Lemma nth_error_list_set {A} (x : A) : forall l n m,
  n < List.length l ->
  nth_error (list_set n x l) m = if m =? n then Some x else nth_error l m.
Proof.
  induction l as [|h t IH]; intros n m Hn; simpl in Hn; [lia|].
  destruct n as [|n]; destruct m as [|m]; simpl; try reflexivity.
  apply IH. lia.
Qed.

Lemma In_list_set {A} (x y : A) : forall l n,
  In y (list_set n x l) -> y = x \/ In y l.
Proof.
  induction l as [|h t IH]; intros n H; destruct n as [|n]; simpl in H;
    try (destruct H; fail).
  - destruct H as [<-|H]; simpl; auto.
  - destruct H as [<-|H]; simpl; [auto|].
    destruct (IH n H); simpl; auto.
Qed.

Lemma get_cell_in_range h w g i j :
  rectangular h w g -> i < h -> j < w -> exists x, get_cell g i j = Some x.
Proof.
  intros [Hl Hr] Hi Hj. unfold get_cell.
  destruct (nth_error g i) as [row|] eqn:E.
  - assert (Hlen : List.length row = w) by (apply Hr; eapply nth_error_In; eassumption).
    destruct (nth_error row j) eqn:E2; [eauto|].
    apply nth_error_None in E2. lia.
  - apply nth_error_None in E. lia.
Qed.

Lemma get_cell_Some_range h w g i j x :
  rectangular h w g -> get_cell g i j = Some x -> i < h /\ j < w.
Proof.
  intros [Hl Hr]. unfold get_cell.
  destruct (nth_error g i) as [row|] eqn:E; [|discriminate].
  intro H. split.
  - rewrite <- Hl. apply nth_error_Some. congruence.
  - rewrite <- (Hr row (nth_error_In _ _ E)). apply nth_error_Some. congruence.
Qed.

(** [letters[i][j] = c] succeeds exactly inside the grid. *)
Lemma set_cell_in_range h w g i j c :
  rectangular h w g -> i < h -> j < w -> exists g', set_cell i j c g = Ret g'.
Proof.
  intros [Hl Hr] Hi Hj. unfold set_cell.
  destruct (nth_error g i) as [row|] eqn:E.
  - rewrite (Hr row (nth_error_In _ _ E)).
    destruct (Nat.ltb_spec j w); [eauto|lia].
  - apply nth_error_None in E. lia.
Qed.

Lemma set_cell_Ret h w g i j c g' :
  rectangular h w g -> set_cell i j c g = Ret g' ->
  i < h /\ j < w /\ rectangular h w g' /\
  forall r k, get_cell g' r k =
              if (r =? i) && (k =? j) then Some (Some c) else get_cell g r k.
Proof.
  intros [Hl Hr]. unfold set_cell.
  destruct (nth_error g i) as [row|] eqn:E; [|discriminate].
  assert (Hi : i < List.length g) by (apply nth_error_Some; congruence).
  pose proof (Hr row (nth_error_In _ _ E)) as Hrow.
  destruct (Nat.ltb_spec j (List.length row)) as [Hj|]; [|discriminate].
  intro H. inversion H; subst g'. clear H.
  split; [lia|]. split; [lia|]. split.
  - split; [rewrite length_list_set; assumption|].
    intros row' Hin. apply In_list_set in Hin. destruct Hin as [->|Hin]; [|auto].
    rewrite length_list_set. assumption.
  - intros r k. unfold get_cell. rewrite nth_error_list_set by assumption.
    destruct (Nat.eqb_spec r i) as [->|Hri]; simpl; [|reflexivity].
    rewrite nth_error_list_set by assumption. rewrite E.
    destruct (k =? j); reflexivity.
Qed.

Lemma set_cell_not_OutOfFuel i j c g : set_cell i j c g <> OutOfFuel.
Proof.
  unfold set_cell. destruct (nth_error g i); [|discriminate].
  destruct (j <? List.length l); discriminate.
Qed.

(** One word: the grid keeps its shape, every cell written lies inside
    it, a cell that changed was written, and a cell that was written
    holds what some turn of the loop wrote in it. *)
Lemma write_word_Ret h w v : forall rest k g g',
  rectangular h w g -> write_word v rest k g = Ret g' ->
  rectangular h w g' /\
  (forall p c, String.get p rest = Some c ->
     fst (cell v (k + p)) < h /\ snd (cell v (k + p)) < w) /\
  (forall r q, get_cell g' r q = get_cell g r q \/
     exists p c, String.get p rest = Some c /\ cell v (k + p) = (r, q) /\
                 get_cell g' r q = Some (Some c)) /\
  (forall p c, String.get p rest = Some c ->
     exists p' c', String.get p' rest = Some c' /\
                   cell v (k + p') = cell v (k + p) /\
                   get_cell g' (fst (cell v (k + p))) (snd (cell v (k + p)))
                   = Some (Some c')).
Proof.
  induction rest as [|c0 rest IH]; intros k g g' Hg H; cbn [write_word] in H.
  - inversion H; subst. split; [assumption|]. split; [intros p c Hp; discriminate|].
    split; [auto|]. intros p c Hp. discriminate.
  - destruct (set_cell (fst (cell v k)) (snd (cell v k)) c0 g) as [g1| |] eqn:Hset;
      cbn [bind] in H; try discriminate.
    destruct (set_cell_Ret h w g _ _ c0 g1 Hg Hset) as (Hi & Hj & Hg1 & Hget1).
    destruct (IH (S k) g1 g' Hg1 H) as (Hg' & Hb & Hprov & Hcov).
    split; [assumption|]. split; [|split].
    + intros p c Hp. destruct p as [|p]; simpl in Hp.
      * rewrite Nat.add_0_r. auto.
      * replace (k + S p) with (S k + p) by lia. eapply Hb. eassumption.
    + intros r q. destruct (Hprov r q) as [Hsame|(p & c & Hp & Hcell & Hval)].
      * rewrite Hsame, Hget1.
        destruct (Nat.eqb_spec r (fst (cell v k))) as [Hr|]; cbn [andb]; [|auto].
        destruct (Nat.eqb_spec q (snd (cell v k))) as [Hq|]; [|auto].
        right. exists 0, c0. rewrite Nat.add_0_r. split; [reflexivity|].
        split; [|reflexivity]. subst r q. destruct (cell v k); reflexivity.
      * right. exists (S p), c. replace (k + S p) with (S k + p) by lia. auto.
    + intros p c Hp. destruct p as [|p]; simpl in Hp.
      * rewrite Nat.add_0_r.
        destruct (Hprov (fst (cell v k)) (snd (cell v k)))
          as [Hsame|(p' & c' & Hp' & Hcell & Hval)].
        -- exists 0, c0. rewrite Nat.add_0_r. split; [reflexivity|].
           split; [reflexivity|]. rewrite Hsame, Hget1, !Nat.eqb_refl. reflexivity.
        -- exists (S p'), c'. replace (k + S p') with (S k + p') by lia.
           split; [assumption|]. split; [|assumption].
           rewrite Hcell. destruct (cell v k); reflexivity.
      * destruct (Hcov p c Hp) as (p' & c' & Hp' & Hcell & Hval).
        exists (S p'), c'. replace (k + S p') with (S k + p') by lia.
        replace (k + S p) with (S k + p) by lia. auto.
Qed.

Lemma write_word_in_range h w v : forall rest k g,
  rectangular h w g ->
  (forall p c, String.get p rest = Some c ->
     fst (cell v (k + p)) < h /\ snd (cell v (k + p)) < w) ->
  exists g', write_word v rest k g = Ret g'.
Proof.
  induction rest as [|c0 rest IH]; intros k g Hg Hb; cbn [write_word]; [eauto|].
  destruct (Hb 0 c0 eq_refl) as [Hi Hj]. rewrite Nat.add_0_r in Hi, Hj.
  destruct (set_cell_in_range h w g _ _ c0 Hg Hi Hj) as [g1 Hset].
  rewrite Hset. cbn [bind].
  destruct (set_cell_Ret h w g _ _ c0 g1 Hg Hset) as (_ & _ & Hg1 & _).
  apply (IH (S k) g1 Hg1). intros p c Hp.
  replace (S k + p) with (k + S p) by lia. apply (Hb (S p) c). exact Hp.
Qed.

Lemma write_word_not_OutOfFuel v : forall rest k g,
  write_word v rest k g <> OutOfFuel.
Proof.
  induction rest as [|c0 rest IH]; intros k g; cbn [write_word]; [discriminate|].
  pose proof (set_cell_not_OutOfFuel (fst (cell v k)) (snd (cell v k)) c0 g).
  destruct (set_cell _ _ c0 g); cbn [bind]; [apply IH|discriminate|congruence].
Qed.

Lemma write_items_Ret h w : forall items g g',
  rectangular h w g -> write_items items g = Ret g' ->
  rectangular h w g' /\
  in_grid h w items /\
  (forall r q, get_cell g' r q = get_cell g r q \/
     exists c, writes items (r, q) c /\ get_cell g' r q = Some (Some c)) /\
  (forall r q c, writes items (r, q) c ->
     exists c', writes items (r, q) c' /\ get_cell g' r q = Some (Some c')).
Proof.
  induction items as [|[v word] items IH]; intros g g' Hg H; simpl in H.
  - inversion H; subst. split; [assumption|]. split; [intros v word k c []|].
    split; [auto|]. intros r q c (v & word & k & [] & _).
  - destruct (write_word v word 0 g) as [g1| |] eqn:Hw; simpl in H; try discriminate.
    destruct (write_word_Ret h w v word 0 g g1 Hg Hw) as (Hg1 & Hb1 & Hprov1 & Hcov1).
    destruct (IH g1 g' Hg1 H) as (Hg' & Hb & Hprov & Hcov).
    split; [assumption|]. split; [|split].
    + intros v' word' k c [E|Hin] Hk.
      * inversion E; subst. apply (Hb1 k c Hk).
      * eapply Hb; eassumption.
    + intros r q. destruct (Hprov r q) as [Hsame|(c & (v' & word' & k & Hin & Hk & Hc) & Hval)].
      * rewrite Hsame. destruct (Hprov1 r q) as [Hsame1|(p & c & Hp & Hcell & Hval)];
          [auto|].
        right. exists c. split; [|assumption].
        exists v, word, p. split; [left; reflexivity|auto].
      * right. exists c. split; [|assumption].
        exists v', word', k. split; [right; assumption|auto].
    + intros r q c (v' & word' & k & Hin & Hk & Hc).
      destruct Hin as [E|Hin].
      * inversion E; subst v' word'.
        destruct (Hprov r q)
          as [Hsame|(c' & (v2 & w2 & k2 & Hin2 & Hk2 & Hc2) & Hval)].
        -- destruct (Hcov1 k c Hk) as (p' & c' & Hp' & Hcell & Hval).
           cbn [Nat.add] in Hcell, Hval. rewrite Hc in Hcell, Hval.
           cbn [fst snd] in Hval.
           exists c'. split; [|rewrite Hsame; exact Hval].
           exists v, word, p'. split; [left; reflexivity|auto].
        -- exists c'. split; [|assumption]. exists v2, w2, k2. split; [right; assumption|auto].
      * destruct (Hcov r q c) as (c' & (v2 & w2 & k2 & Hin2 & Hk2 & Hc2) & Hval).
        { exists v', word', k. auto. }
        exists c'. split; [|assumption]. exists v2, w2, k2. split; [right; assumption|auto].
Qed.

Lemma write_items_in_range h w : forall items g,
  rectangular h w g -> in_grid h w items ->
  exists g', write_items items g = Ret g'.
Proof.
  induction items as [|[v word] items IH]; intros g Hg Hb; simpl; [eauto|].
  destruct (write_word_in_range h w v word 0 g Hg) as [g1 Hw].
  { intros p c Hp. cbn [Nat.add]. apply (Hb v word p c); [left; reflexivity|assumption]. }
  rewrite Hw. simpl.
  destruct (write_word_Ret h w v word 0 g g1 Hg Hw) as (Hg1 & _).
  apply (IH g1 Hg1). intros v' word' k c Hin Hk.
  apply (Hb v' word' k c); [right; assumption|assumption].
Qed.

Lemma write_word_raises v : forall rest k g e,
  write_word v rest k g = Raise e -> e = IndexError.
Proof.
  induction rest as [|c0 rest IH]; intros k g e H; cbn [write_word] in H; [discriminate|].
  destruct (set_cell (fst (cell v k)) (snd (cell v k)) c0 g) as [g1|e1|] eqn:Hset;
    cbn [bind] in H; try discriminate.
  - eapply IH; eassumption.
  - inversion H; subst. unfold set_cell in Hset.
    destruct (nth_error g (fst (cell v k))); [|congruence].
    destruct (snd (cell v k) <? List.length l); congruence.
Qed.

Lemma write_items_raises : forall items g e,
  write_items items g = Raise e -> e = IndexError.
Proof.
  induction items as [|[v word] items IH]; intros g e H; simpl in H; [discriminate|].
  destruct (write_word v word 0 g) as [g1|e1|] eqn:Hw; simpl in H; try discriminate.
  - eapply IH; eassumption.
  - inversion H; subst. eapply write_word_raises; eassumption.
Qed.

Lemma write_items_not_OutOfFuel : forall items g, write_items items g <> OutOfFuel.
Proof.
  induction items as [|[v word] items IH]; intros g; simpl; [discriminate|].
  pose proof (write_word_not_OutOfFuel v word 0 g).
  destruct (write_word v word 0 g); simpl; [apply IH|discriminate|congruence].
Qed.

Lemma blank_rectangular h w : rectangular h w (repeat (repeat None w) h).
Proof.
  split; [apply repeat_length|].
  intros row Hin. apply repeat_spec in Hin. subst. apply repeat_length.
Qed.

Lemma blank_get_cell h w r q :
  r < h -> q < w ->
  get_cell (repeat (repeat (@None ascii) w) h) r q = Some None.
Proof.
  intros Hr Hq. unfold get_cell.
  rewrite (nth_error_repeat _ Hr). apply (nth_error_repeat _ Hq).
Qed.

(** X18. [letter_grid] returns a grid exactly when every letter of every
    word of the assignment falls inside the [height] by [width] grid, and
    the grid then has [height] rows of [width] cells; otherwise the
    assignment to [letters[i][j]] raises [IndexError]. *)
Theorem letter_grid_outcome (height width : nat) (a : dict) :
  match letter_grid height width a with
  | Ret g => in_grid height width a /\ rectangular height width g
  | Raise e => e = IndexError /\ ~ in_grid height width a
  | OutOfFuel => False
  end.
Proof.
  unfold letter_grid.
  pose proof (blank_rectangular height width) as Hblank.
  destruct (write_items a (repeat (repeat None width) height)) as [g|e|] eqn:H.
  - destruct (write_items_Ret height width a _ g Hblank H) as (Hg & Hb & _).
    auto.
  - split; [eapply write_items_raises; eassumption|].
    intro Hb. destruct (write_items_in_range height width a _ Hblank Hb) as [g Hg].
    congruence.
  - revert H. apply write_items_not_OutOfFuel.
Qed.

(** X19. In the grid that [letter_grid] returns, a cell that no entry of
    the assignment covers is [None], and a cell that some entry covers
    holds a character that an entry puts there; nothing else appears. *)
Theorem letter_grid_cells (height width : nat) (a : dict) (g : grid) (r q : nat) :
  letter_grid height width a = Ret g -> r < height -> q < width ->
  (get_cell g r q = Some None /\ forall c, ~ writes a (r, q) c) \/
  (exists c, writes a (r, q) c /\ get_cell g r q = Some (Some c)).
Proof.
  unfold letter_grid. intros H Hr Hq.
  destruct (write_items_Ret height width a _ g (blank_rectangular height width) H)
    as (_ & _ & Hprov & Hcov).
  destruct (Hprov r q) as [Hsame|Hwr]; [|right; exact Hwr].
  rewrite (blank_get_cell height width r q Hr Hq) in Hsame.
  left. split; [assumption|].
  intros c Hc. destruct (Hcov r q c Hc) as (c' & _ & Hval). congruence.
Qed.

(** From any grid: when no two entries put different letters in one
    cell, every letter of every word is at its cell afterwards. *)
Lemma write_items_shows h w (items : dict) (g0 g : grid) v word k c :
  rectangular h w g0 -> write_items items g0 = Ret g -> cells_agree items ->
  In (v, word) items -> String.get k word = Some c ->
  get_cell g (fst (cell v k)) (snd (cell v k)) = Some (Some c).
Proof.
  intros Hg0 H Hagree Hin Hk.
  destruct (write_items_Ret h w items g0 g Hg0 H) as (_ & _ & _ & Hcov).
  destruct (Hcov (fst (cell v k)) (snd (cell v k)) c)
    as (c' & (v2 & w2 & k2 & Hin2 & Hk2 & Hc2) & Hval).
  { exists v, word, k. split; [assumption|]. split; [assumption|].
    destruct (cell v k); reflexivity. }
  rewrite Hval. f_equal. f_equal.
  apply (Hagree v2 w2 v word k2 k c' c Hin2 Hin); try assumption.
Qed.

(** X20. When no two entries of the assignment put different letters in
    one cell, the grid that [letter_grid] returns shows every letter of
    every word at its cell. *)
Theorem letter_grid_shows_words (height width : nat) (a : dict) (g : grid)
        (v : Slot.t) (word : string) (k : nat) (c : ascii) :
  letter_grid height width a = Ret g -> cells_agree a ->
  In (v, word) a -> String.get k word = Some c ->
  get_cell g (fst (cell v k)) (snd (cell v k)) = Some (Some c).
Proof.
  unfold letter_grid. intros H Hagree Hin Hk.
  exact (write_items_shows height width a _ g v word k c
           (blank_rectangular height width) H Hagree Hin Hk).
Qed.

End LetterGrid.

Lemma example_cells_agree :
  cells_agree [(Example.A, "CAT"%string); (Example.B, "BAT"%string)].
Proof.
  intros v1 w1 v2 w2 k1 k2 c1 c2 H1 H2 Hcell Hg1 Hg2.
  destruct H1 as [E1|[E1|[]]]; inversion E1; subst v1 w1;
    destruct H2 as [E2|[E2|[]]]; inversion E2; subst v2 w2;
    destruct k1 as [|[|[|k1]]]; simpl in Hg1; try discriminate;
    destruct k2 as [|[|[|k2]]]; simpl in Hg2; try discriminate;
    vm_compute in Hcell; try discriminate; congruence.
Qed.

Lemma letter_grid_cells_witness :
  (get_cell [[None; Some "B"%char; None];
             [Some "C"%char; Some "A"%char; Some "T"%char];
             [None; Some "T"%char; None]] 0 0 = Some None /\
   forall c, ~ writes [(Example.A, "CAT"%string); (Example.B, "BAT"%string)] (0, 0) c) \/
  (exists c, writes [(Example.A, "CAT"%string); (Example.B, "BAT"%string)] (0, 0) c /\
     get_cell [[None; Some "B"%char; None];
               [Some "C"%char; Some "A"%char; Some "T"%char];
               [None; Some "T"%char; None]] 0 0 = Some (Some c)).
Proof.
  apply (letter_grid_cells 3 3); [vm_compute; reflexivity|lia|lia].
Defined.

Lemma letter_grid_shows_words_witness :
  get_cell [[None; Some "B"%char; None];
            [Some "C"%char; Some "A"%char; Some "T"%char];
            [None; Some "T"%char; None]]
           (fst (cell Example.B 2)) (snd (cell Example.B 2)) = Some (Some "T"%char).
Proof.
  apply (letter_grid_shows_words 3 3
           [(Example.A, "CAT"%string); (Example.B, "BAT"%string)] _ Example.B
           "BAT"%string 2 "T"%char).
  - vm_compute. reflexivity.
  - exact example_cells_agree.
  - right. left. reflexivity.
  - reflexivity.
Defined.

(** ** The grid of a solution *)

Section GridOfSolution.

Variable cw : Crossword.

Lemma string_get_lt : forall (w : string) k c,
  String.get k w = Some c -> k < String.length w.
Proof.
  induction w as [|a w IH]; intros k c H; simpl in H; [discriminate|].
  destruct k as [|k]; simpl; [lia|]. apply IH in H. lia.
Qed.

(** The cells of one slot are pairwise distinct. *)
Lemma cell_injective v k1 k2 : cell v k1 = cell v k2 -> k1 = k2.
Proof.
  unfold cell. intro H. inversion H. destruct (Slot.direction v); lia.
Qed.

(** With the overlap relation of the grid, what [consistent] checks is
    what the grid needs: two entries never disagree on a cell. *)
Lemma consistent_cells_agree (a : dict) :
  overlaps_geometric cw -> NoDup (map fst a) ->
  (forall v, In v (map fst a) -> In v (variables cw)) ->
  lengths_match a -> overlaps_agree cw a -> cells_agree a.
Proof.
  intros Hgeo Hnd Hkeys Hlen Hov v1 w1 v2 w2 k1 k2 c1 c2 H1 H2 Hcell Hg1 Hg2.
  pose proof (NoDup_keys_get a v1 w1 Hnd H1) as G1.
  pose proof (NoDup_keys_get a v2 w2 Hnd H2) as G2.
  destruct (Slot.eq_dec v1 v2) as [E|N].
  - subst v2. assert (w1 = w2) by congruence. subst w2.
    apply cell_injective in Hcell. subst k2. congruence.
  - assert (Hov' : overlaps cw v1 v2 = Some (k1, k2)).
    { apply Hgeo; try assumption.
      - apply Hkeys, in_map_iff. exists (v1, w1). auto.
      - apply Hkeys, in_map_iff. exists (v2, w2). auto.
      - rewrite <- (Hlen v1 w1 G1). eapply string_get_lt; eassumption.
      - rewrite <- (Hlen v2 w2 G2). eapply string_get_lt; eassumption. }
    destruct (Hov v1 v2 k1 k2 w1 w2 N Hov' G1 G2) as (c & Hc1 & Hc2). congruence.
Qed.

(** X21. On a puzzle whose slots lie inside the grid and whose overlap
    relation is that of the grid, [letter_grid] applied to an assignment
    returned by [solve] raises nothing, and the grid it returns shows
    every word of the assignment, letter by letter, at the cells of its
    slot: no word is damaged by a crossing word. *)
Theorem solve_letter_grid (height width : nat) (D : store) (a : dict) (st' : state) :
  overlaps_geometric cw -> slots_in_grid height width cw ->
  solve cw D = (Ret (Some a), st') ->
  exists g, letter_grid height width a = Ret g /\
    forall v word k c, In (v, word) a -> String.get k word = Some c ->
      get_cell g (fst (cell v k)) (snd (cell v k)) = Some (Some c).
Proof.
  intros Hgeo Hslots. unfold solve.
  destruct (ac3 cw _ None (enforce_node_consistency D)) as [r D2].
  destruct r as [b|e|]; try discriminate.
  intro H.
  destruct (backtrack_result cw _ _ _ _ H) as (_ & _ & Hcons).
  assert (Hsound : lengths_match a /\ words_distinct a /\ overlaps_agree cw a).
  { apply consistent_sound. destruct Hcons as [->|Hcons]; [reflexivity|assumption]. }
  destruct Hsound as (Hlen & _ & Hov).
  destruct (backtrack_grows _ _ _ _ _ H) as (added & Hres & Hnd & Hall).
  simpl in Hres, Hall. subst a.
  assert (Hkeys : forall v, In v (map fst added) -> In v (variables cw)).
  { intros v Hv. apply in_map_iff in Hv. destruct Hv as [[v' u] [Hfst Hin]].
    simpl in Hfst. subst v'. apply (Hall v u Hin). }
  assert (Hin_grid : in_grid height width added).
  { intros v word k c Hin Hk. apply Hslots.
    - apply Hkeys, in_map_iff. exists (v, word). auto.
    - rewrite <- (Hlen v word (NoDup_keys_get added v word Hnd Hin)).
      eapply string_get_lt; eassumption. }
  unfold letter_grid.
  destruct (write_items_in_range height width added _
              (blank_rectangular height width) Hin_grid) as [g Hg].
  exists g. split; [assumption|].
  intros v word k c Hin Hk.
  exact (write_items_shows height width added _ g v word k c
           (blank_rectangular height width) Hg
           (consistent_cells_agree added Hgeo Hnd Hkeys Hlen Hov) Hin Hk).
Qed.

End GridOfSolution.

Lemma example_geometric : overlaps_geometric Example.cw.
Proof.
  intros x y k1 k2 Hx Hy Hne Hk1 Hk2 Hcell.
  destruct Hx as [<-|[<-|[]]]; destruct Hy as [<-|[<-|[]]];
    try (exfalso; apply Hne; reflexivity);
    simpl in Hk1, Hk2;
    destruct k1 as [|[|[|k1]]]; try lia;
    destruct k2 as [|[|[|k2]]]; try lia;
    vm_compute in Hcell; try discriminate; reflexivity.
Qed.

Lemma example_slots_in_grid : slots_in_grid 3 3 Example.cw.
Proof.
  intros v k Hv Hk.
  destruct Hv as [<-|[<-|[]]]; simpl in Hk;
    destruct k as [|[|[|k]]]; try lia; vm_compute; split; lia.
Qed.

Lemma solve_letter_grid_witness :
  exists g, letter_grid 3 3 [(Example.A, "CAT"%string); (Example.B, "BAT"%string)] = Ret g /\
    forall v word k c,
      In (v, word) [(Example.A, "CAT"%string); (Example.B, "BAT"%string)] ->
      String.get k word = Some c ->
      get_cell g (fst (cell v k)) (snd (cell v k)) = Some (Some c).
Proof.
  apply (solve_letter_grid Example.cw 3 3 (init Example.cw) _
           (snd (solve Example.cw (init Example.cw)))
           example_geometric example_slots_in_grid).
  vm_compute. reflexivity.
Defined.
